(** * confd backends: flattening and WatchPrefix

    A shallow embedding of three backend clients of confd

    - [Rancher]   : builtin/databases/rancher/client.go
    - [Zookeeper] : backends/zookeeper/client.go (package zookeeper)
    - [Ssm]       : backends/zookeeper/client.go (package ssm)

    together with the properties their specification states about them.

    Go maps of strings are [gmap string string]; the remote services the
    clients talk to are oracles held by the client value; a call that
    blocks, sleeps, logs or panics is a computation over an explicit
    world. *)

From Stdlib Require Import ZArith List String Ascii Floats Lia.
From stdpp Require Import gmap strings list fin_maps pretty.
From ITree Require Import ITree Eq.Eqit.

Open Scope string_scope.
Open Scope list_scope.
Open Scope nat_scope.

(** ** Go values shared by the three packages *)

(** Go's [error] interface, by the dynamic types these packages meet:
    plain errors ([errors.New], transport and decode errors) and the AWS
    SDK's [awserr.Error], which carries a code. [option error] is an
    [error] variable, [None] being [nil]. *)
Inductive error : Type :=
| GoError (msg : string)
| AwsError (code message : string).

(** How a call ends: it returns, it panics (no function here recovers), or
    the model ran out of the steps it was given. *)
Inductive outcome (A : Type) : Type :=
| Returns (a : A)
| Panics (msg : string)
| OutOfFuel.
Arguments Returns {A} a.
Arguments Panics {A} msg.
Arguments OutOfFuel {A}.

(** [time.Duration] is an [int64] count of nanoseconds. *)
Definition wrap64 (z : Z) : Z := (z + 2 ^ 63) mod 2 ^ 64 - 2 ^ 63.
Definition Second : Z := 1000000000.

(** [strings.Join(elems, sep)]. *)
Fixpoint Join (elems : list string) (sep : string) : string :=
  match elems with
  | [] => ""
  | [a] => a
  | a :: rest => a +:+ sep +:+ Join rest sep
  end.

(** [strings.HasPrefix(s, prefix)]. *)
Fixpoint HasPrefix (s prefix : string) {struct prefix} : bool :=
  match prefix, s with
  | EmptyString, _ => true
  | String p prefix', String c s' => if Ascii.eqb p c then HasPrefix s' prefix' else false
  | String _ _, EmptyString => false
  end.

(** [strconv.FormatBool] and [strconv.Itoa] (on an index, never negative). *)
Definition FormatBool (b : bool) : string := if b then "true" else "false".
Definition Itoa (i : nat) : string := pretty i.

(** Writing the entries of a list into a map, first entry first: what a
    sequence of assignments [vars[k] = v] leaves. *)
Definition assign_all (kvs : list (string * string)) (vars : gmap string string)
  : gmap string string :=
  fold_left (fun m kv => <[kv.1 := kv.2]> m) kvs vars.

(** * builtin/databases/rancher *)
Module Rancher.

(** What [json.Unmarshal] stores in an [interface{}], and whatever else an
    [interface{}] may hold ([VOther], by the name of its type). A Go map
    has one value per key and is ranged over in an order the runtime
    picks: [VMap] lists the entries in the order of that range. *)
#[local] Unset Elimination Schemes.
Inductive value : Type :=
| VMap (m : list (string * value))
| VSlice (l : list value)
| VBool (b : bool)
| VString (s : string)
| VFloat64 (f : float)
| VNil
| VOther (typeName : string).
#[local] Set Elimination Schemes.

(** [m[k]] with its [exists] flag. *)
Fixpoint index (m : list (string * value)) (k : string) : option value :=
  match m with
  | [] => None
  | (k', v) :: rest => if decide (k' = k) then Some v else index rest k
  end.

(** The world outside one client: how many requests the HTTP client has
    sent, the durations slept (latest first) and the lines logged (latest
    first). *)
Record world : Type := World {
  requests : nat;
  slept : list Z;
  logged : list string
}.

Definition M (A : Type) : Type := world → outcome (A * world).

#[global] Instance M_ret : MRet M := λ A a w, Returns (a, w).
#[global] Instance M_bind : MBind M := λ A B f m w,
  match m w with
  | Returns (a, w') => f a w'
  | Panics msg => Panics msg
  | OutOfFuel => OutOfFuel
  end.

Definition panic {A} (msg : string) : M A := λ _, Panics msg.
Definition out_of_fuel {A} : M A := λ _, OutOfFuel.
Definition Printf (line : string) : M unit :=
  λ w, Returns (tt, World (requests w) (slept w) (line :: logged w)).
Definition Sleep (d : Z) : M unit :=
  λ w, Returns (tt, World (requests w) (d :: slept w) (logged w)).

(** [for i, a := range l { ... }] from index [i], the body threading a
    value of type [V] (the map it writes to). *)
Fixpoint forRange {A V : Type} (body : nat → A → V → M V) (i : nat)
  (l : list A) (vars : V) : M V :=
  match l with
  | [] => mret vars
  | a :: rest => vars' ← body i a vars; forRange body (S i) rest vars'
  end.

(** The answer of [http.Client.Do] followed by [ioutil.ReadAll] on the
    body: a transport error, or the bytes read and the error of the read. *)
Definition response : Type := (error + (list Byte.byte * option error))%type.

(** The client. [httpClient n url] is what the [n]-th request of the
    session (from 0) gets when it asks for [url]. *)
Record Client : Type := {
  url : string;
  httpClient : nat → string → response
}.

Definition makeMetaDataRequest (c : Client) (path : string)
  : M (list Byte.byte * option error) :=
  λ w,
    let w' := World (S (requests w)) (slept w) (logged w) in
    match httpClient c (requests w) (Join [url c; path] "") with
    | inl err => Returns (([], Some err), w')
    | inr (body, rerr) => Returns ((body, rerr), w')
    end.

Section WithGo.

(** Go's standard library, outside this repository:
    [strconv.FormatFloat(f, 'f', -1, 64)] and [json.Unmarshal] into an
    [interface{}]. *)
Variable FormatFloat : float → string.
Variable Unmarshal : list Byte.byte → value * option error.

(** [idx] of one array element in [treeWalk]: the decimal index, replaced
    by the element's ["name"] when the element is a map that has one. The
    assertion [name.(string)] has no comma-ok form: it panics on a name
    that is not a string. *)
Definition segment (i : nat) (item : value) : M string :=
  match item with
  | VMap m =>
      match index m "name" with
      | Some (VString name) => mret name
      | Some _ => panic "interface conversion: interface {} is not string"
      | None => mret (Itoa i)
      end
  | _ => mret (Itoa i)
  end.

(** [treeWalk(root, val, vars)]. The map is passed in and handed back;
    the error returned is [nil] on the only return there is, and the
    recursive calls drop it. *)
Fixpoint treeWalk (root : string) (val : value) (vars : gmap string string)
  {struct val} : M (gmap string string * option error) :=
  match val with
  | VMap m =>
      vars ← forRange
        (λ _ kv vars,
           r ← treeWalk (Join [root; kv.1] "/") kv.2 vars;
           mret r.1) 0 m vars;
      mret (vars, None)
  | VSlice l =>
      vars ← forRange
        (λ i item vars,
           idx ← segment i item;
           r ← treeWalk (Join [root; idx] "/") item vars;
           mret r.1) 0 l vars;
      mret (vars, None)
  | VBool b => mret (<[root := FormatBool b]> vars, None)
  | VString s => mret (<[root := s]> vars, None)
  | VFloat64 f => mret (<[root := FormatFloat f]> vars, None)
  | VNil => mret (<[root := "null"]> vars, None)
  | VOther typeName =>
      _ ← Printf ("Unknown type: " +:+ typeName);
      mret (vars, None)
  end.

(** [GetValues(keys)], as the loop over [keys] from a given [vars]. *)
Fixpoint GetValues_from (c : Client) (keys : list string)
  (vars : gmap string string) : M (gmap string string * option error) :=
  match keys with
  | [] => mret (vars, None)
  | key :: rest =>
      r ← makeMetaDataRequest c key;
      match r.2 with
      | Some err => mret (vars, Some err)
      | None =>
          let (jsonResponse, err) := Unmarshal r.1 in
          match err with
          | Some err => mret (vars, Some err)
          | None =>
              t ← treeWalk key jsonResponse vars;
              match t.2 with
              | Some err => mret (t.1, Some err)
              | None => GetValues_from c rest t.1
              end
          end
      end
  end.

Definition GetValues (c : Client) (keys : list string)
  : M (gmap string string * option error) :=
  GetValues_from c keys ∅.

(** ** The flattening in the words of the specification *)

(** The entries of the elements of a list, one element after the other,
    each under its index. *)
Fixpoint eachIndexed {A B : Type} (f : nat → A → list B) (i : nat) (l : list A)
  : list B :=
  match l with
  | [] => []
  | a :: rest => f i a ++ eachIndexed f (S i) rest
  end.

(** The path segment of an array element: "the element's own name field
    if the element is itself an object containing one, otherwise the
    element's zero-based decimal index". *)
Definition pathSegment (i : nat) (item : value) : string :=
  match item with
  | VMap m =>
      match index m "name" with
      | Some (VString name) => name
      | _ => Itoa i
      end
  | _ => Itoa i
  end.

(** The flat entries of a value under [root], in the order of the walk:
    a scalar gives one entry, an object those of its entries under
    [root/key], an array those of its elements under [root/segment], a
    value of any other type none. *)
Fixpoint flattened (root : string) (val : value) {struct val}
  : list (string * string) :=
  match val with
  | VMap m => eachIndexed (λ _ kv, flattened (root +:+ "/" +:+ kv.1) kv.2) 0 m
  | VSlice l =>
      eachIndexed
        (λ i item, flattened (root +:+ "/" +:+ pathSegment i item) item) 0 l
  | VBool b => [(root, if b then "true" else "false")]
  | VString s => [(root, s)]
  | VFloat64 f => [(root, FormatFloat f)]
  | VNil => [(root, "null")]
  | VOther _ => []
  end.

(** The diagnostics of a walk, first one first: one line for every value
    of a type the walk does not know. *)
Fixpoint diagnostics (val : value) : list string :=
  match val with
  | VMap m => eachIndexed (λ _ kv, diagnostics kv.2) 0 m
  | VSlice l => eachIndexed (λ _ item, diagnostics item) 0 l
  | VOther typeName => ["Unknown type: " +:+ typeName]
  | _ => []
  end.

(** Every array element that is an object with a ["name"] has a string
    there. *)
Definition nameIsString (item : value) : bool :=
  match item with
  | VMap m =>
      match index m "name" with
      | Some (VString _) | None => true
      | Some _ => false
      end
  | _ => true
  end.

Fixpoint wellNamed (val : value) : bool :=
  match val with
  | VMap m => forallb (λ kv, wellNamed kv.2) m
  | VSlice l => forallb (λ item, nameIsString item && wellNamed item) l
  | _ => true
  end.

End WithGo.

(** [testConnection]: [i] is the loop variable, [err] the function's
    [err] variable. *)
Definition maxTime : Z := 20 * Second.

Fixpoint testConnection_loop (fuel : nat) (c : Client) (i : Z)
  (err : option error) : M (option error) :=
  match fuel with
  | O => out_of_fuel
  | S fuel' =>
      if (i <? maxTime)%Z then
        r ← makeMetaDataRequest c "/";
        match r.2 with
        | Some e =>
            _ ← Sleep i;
            testConnection_loop fuel' c (wrap64 (i * 2)) (Some e)
        | None => mret None
        end
      else mret err
  end.

Definition testConnection (fuel : nat) (c : Client) : M (option error) :=
  testConnection_loop fuel c (1 * Second) None.


(** [WatchPrefix(prefix, keys, waitIndex)]; [waitIndex] is a [uint64]. *)
Definition WatchPrefix (prefix : string) (keys : list string) (waitIndex : Z)
  : Z * option error :=
  (0%Z, None).


(** The world after the lines [lines] were logged, first one first. *)
Definition withLogged (lines : list string) (w : world) : world :=
  World (requests w) (slept w) (rev lines ++ logged w).






(** ** Values and endpoints to run the client on *)

(** The array of the specification's example:
    [[{"name":"eu","val":1},{"name":"us","val":2}]]. *)
Definition regions : value :=
  VSlice [VMap [("name", VString "eu"); ("val", VFloat64 1)];
          VMap [("name", VString "us"); ("val", VFloat64 2)]].

(** [[{"name":1}]]: an array element whose name is a number. *)
Definition misnamed : value := VSlice [VMap [("name", VFloat64 1)]].

(** A formatter that knows the whole numbers up to nine. *)
Definition smallFloat (f : float) : string :=
  match List.find (λ n, (f =? PrimFloat.of_uint63 (Uint63.of_Z (Z.of_nat n)))%float)
          (seq 0 10) with
  | Some n => pretty n
  | None => "?"
  end.

(** A decoder that knows two documents. *)
Definition twoDocuments (body : list Byte.byte) : value * option error :=
  if decide (string_of_list_byte body = "regions") then (regions, None)
  else if decide (string_of_list_byte body = "true") then (VBool true, None)
  else (VNil, Some (GoError "invalid character")).

Definition emptyWorld : world := World 0 [] [].



(** An endpoint that serves [/regions] and nothing else. *)
Definition regionsEndpoint : Client :=
  {| url := "http://rancher-metadata";
     httpClient := λ _ u,
       if decide (u = "http://rancher-metadata/regions")
       then inr (list_byte_of_string "regions", None)
       else inl (GoError "no route to host") |}.

(** ** The same value, ranged over in another order *)

(** Every object of the value has one entry for each of its keys, as a
    Go map has. *)
Fixpoint uniqueKeys (val : value) : bool :=
  match val with
  | VMap m => bool_decide (NoDup m.*1) && forallb (λ kv, uniqueKeys kv.2) m
  | VSlice l => forallb uniqueKeys l
  | _ => true
  end.

(** [reordered val val']: [val'] is [val] with the entries of its
    objects, at any depth, met in another order; arrays keep theirs. *)
#[local] Unset Elimination Schemes.
Inductive reordered : value → value → Prop :=
| reordered_same v : reordered v v
| reordered_map m m1 m' :
    Forall2 (λ kv kv', kv.1 = kv'.1 ∧ reordered kv.2 kv'.2) m m1 →
    m1 ≡ₚ m' →
    reordered (VMap m) (VMap m')
| reordered_slice l l' :
    Forall2 reordered l l' →
    reordered (VSlice l) (VSlice l').
#[local] Set Elimination Schemes.

(** The object [{"b":{"y":2,"x":1},"a":true}] and the same object
    ranged over the other way round at both levels. *)
Definition nested : value :=
  VMap [("b", VMap [("y", VFloat64 2); ("x", VFloat64 1)]); ("a", VBool true)].

Definition nestedSorted : value :=
  VMap [("a", VBool true); ("b", VMap [("x", VFloat64 1); ("y", VFloat64 2)])].

(** ** Configure *)

(** [MetaDataURL]. *)
Definition MetaDataURL : string := "http://rancher-metadata".

(** [strings.Split(s, sep)] for a non-empty [sep]: the pieces of [s]
    around every occurrence of [sep], left to right, without overlap.
    [cur] is the piece being read and [skip] counts the characters of a
    matched [sep] still to pass over. *)
Fixpoint split_from (sep : string) (skip : nat) (cur : string) (s : string)
  : list string :=
  match s with
  | EmptyString => [cur]
  | String ch rest =>
      match skip with
      | S k => split_from sep k cur rest
      | O =>
          if HasPrefix s sep
          then cur :: split_from sep (String.length sep - 1) "" rest
          else split_from sep 0 (cur +:+ String ch "") rest
      end
  end.

Definition Split (s sep : string) : list string := split_from sep 0 "" s.

(** Does the character [ch] occur in [s]. *)
Fixpoint hasChar (ch : ascii) (s : string) : bool :=
  match s with
  | EmptyString => false
  | String ch' rest => Ascii.eqb ch ch' || hasChar ch rest
  end.

Section Configuring.

(** The type [Config] of this package, declared outside this file, by
    the one field read here, and [mapstructure.Decode] into it. *)
Variable Config : Type.
Variable BackendNodes : Config → string.
Variable Decode : gmap string string → Config * option error.

(** [Configure(configRaw)]: the client as the call leaves it, and the
    error returned. The requests of the new [http.Client] go to the same
    network as before. [log.Printf] is handed the line as its format,
    with no arguments: what is logged here is that format, which is the
    line printed when no [%] stands in it. *)
Definition Configure (fuel : nat) (c : Client) (configRaw : gmap string string)
  : M (Client * option error) :=
  let (config, err) := Decode configRaw in
  match err with
  | Some e => mret (c, Some e)
  | None =>
      url ← (if (0 <? length (Split (BackendNodes config) ","))%nat then
               match Split (BackendNodes config) "," with
               | first :: _ => mret ("http://" +:+ first)
               | [] => panic "index out of range [0] with length 0"
               end
             else mret MetaDataURL);
      _ ← Printf ("Using Rancher Metadata URL: " +:+ url);
      let c := {| url := url; httpClient := httpClient c |} in
      err ← testConnection fuel c;
      mret (c, err)
  end.

End Configuring.

(** A configuration is its list of backend nodes; decoding reads the
    key [backend_nodes]. *)
Definition readNodes (configRaw : gmap string string) : string * option error :=
  (default "" (configRaw !! "backend_nodes"), None).

(** An endpoint that answers every request with the document [true]. *)
Definition liveEndpoint : Client :=
  {| url := "";
     httpClient := λ _ _, inr (list_byte_of_string "true", None) |}.

End Rancher.

(** * backends/zookeeper, package zookeeper *)
Module Zookeeper.

(** [strings.Replace(s, old, new, -1)] for a non-empty [old]: every
    occurrence, left to right, without overlap. [skip] counts the
    characters of a matched [old] still to pass over. *)
Fixpoint replace_from (old new : string) (skip : nat) (s : string) : string :=
  match s with
  | EmptyString => EmptyString
  | String ch rest =>
      match skip with
      | S k => replace_from old new k rest
      | O =>
          if HasPrefix s old
          then new +:+ replace_from old new (String.length old - 1) rest
          else String ch (replace_from old new 0 rest)
      end
  end.

Definition Replace (s old new : string) : string := replace_from old new 0 s.

(** [zk.Stat], by the one field read here (an [int32]). *)
Record Stat : Type := { NumChildren : Z }.

(** [zk.ErrNoNode]. *)
Definition ErrNoNode : error := GoError "zk: node does not exist".

(** [zk.Conn] as this package uses it: the answers of the ensemble to
    [Children], [Get] and [Exists], and the errors of [GetW] and
    [ChildrenW] (what their channels deliver later is in [received]
    below). One call of [GetValues] reads the ensemble as it stands. *)
Record Conn : Type := {
  Children : string → list string * Stat * option error;
  Get : string → string * Stat * option error;
  Exists : string → bool * Stat * option error;
  GetW : string → option error;
  ChildrenW : string → option error
}.

Record Client : Type := { client : Conn }.

(** [for _, key := range l { ... }] in [nodeWalk], [walk] being the call
    of [nodeWalk] on a child that has children of its own. That call is
    a statement: what it returns is dropped. *)
Fixpoint rangeChildren
  (walk : string → gmap string string → outcome (gmap string string * option error))
  (c : Client) (prefix : string) (l : list string) (vars : gmap string string)
  : outcome (gmap string string * option error) :=
  match l with
  | [] => Returns (vars, None)
  | key :: rest =>
      let s := prefix +:+ "/" +:+ key in
      let '(_, stat, err) := Exists (client c) s in
      match err with
      | Some e => Returns (vars, Some e)
      | None =>
          if (NumChildren stat =? 0)%Z then
            let '(b, _, err) := Get (client c) s in
            match err with
            | Some e => Returns (vars, Some e)
            | None => rangeChildren walk c prefix rest (<[s := b]> vars)
            end
          else
            match walk s vars with
            | Returns (vars', _) => rangeChildren walk c prefix rest vars'
            | Panics msg => Panics msg
            | OutOfFuel => OutOfFuel
            end
      end
  end.

(** [nodeWalk(prefix, c, vars)]. One unit of [fuel] per call frame. *)
Fixpoint nodeWalk (fuel : nat) (prefix : string) (c : Client)
  (vars : gmap string string) : outcome (gmap string string * option error) :=
  match fuel with
  | O => OutOfFuel
  | S fuel' =>
      let '(l, stat, err) := Children (client c) prefix in
      match err with
      | Some e => Returns (vars, Some e)
      | None =>
          if (NumChildren stat =? 0)%Z then
            let '(b, _, err) := Get (client c) prefix in
            match err with
            | Some e => Returns (vars, Some e)
            | None => Returns (<[prefix := b]> vars, None)
            end
          else rangeChildren (λ s vars, nodeWalk fuel' s c vars) c prefix l vars
      end
  end.

(** [GetValues(keys)], as the loop over [keys] from a given [vars]. *)
Fixpoint GetValues_from (fuel : nat) (c : Client) (keys : list string)
  (vars : gmap string string) : outcome (gmap string string * option error) :=
  match keys with
  | [] => Returns (vars, None)
  | v :: rest =>
      let v := Replace v "/*" "" in
      let '(_, _, err) := Exists (client c) v in
      match err with
      | Some e => Returns (vars, Some e)
      | None =>
          let v := if decide (v = "/") then "" else v in
          match nodeWalk fuel v c vars with
          | Returns (vars', Some e) => Returns (vars', Some e)
          | Returns (vars', None) => GetValues_from fuel c rest vars'
          | Panics msg => Panics msg
          | OutOfFuel => OutOfFuel
          end
      end
  end.

Definition GetValues (fuel : nat) (c : Client) (keys : list string)
  : outcome (gmap string string * option error) :=
  GetValues_from fuel c keys ∅.

Record watchResponse : Type := { waitIndex : string; err : option error }.

(** [zk.Event], by the two fields read here. *)
Inductive EventType : Type :=
| EventNodeCreated
| EventNodeDeleted
| EventNodeDataChanged
| EventNodeChildrenChanged
| EventSession
| EventNotWatching.

Record Event : Type := { Type_ : EventType; Err : option error }.

(** What one round of the [select] in [watch] receives. *)
Inductive received : Type :=
| keyEventCh (e : Event)
| childEventCh (e : Event)
| cancelRoutine.

(** The loop of [watch]: the responses it sends on [respChan], in order,
    for what its [select] receives. *)
Fixpoint watch_loop (rs : list received) : list watchResponse :=
  match rs with
  | [] => []
  | keyEventCh e :: rest =>
      match Type_ e with
      | EventNodeDataChanged => {| waitIndex := ""; err := Err e |} :: watch_loop rest
      | _ => watch_loop rest
      end
  | childEventCh e :: rest =>
      match Type_ e with
      | EventNodeChildrenChanged => {| waitIndex := ""; err := Err e |} :: watch_loop rest
      | _ => watch_loop rest
      end
  | cancelRoutine :: _ => []
  end.

(** [watch(key, respChan, cancelRoutine)]: everything the goroutine sends
    on [respChan]. *)
Definition watch (c : Client) (key : string) (rs : list received)
  : list watchResponse :=
  match GetW (client c) key with
  | Some e => [{| waitIndex := ""; err := Some e |}]
  | None => []
  end ++
  match ChildrenW (client c) key with
  | Some e => [{| waitIndex := ""; err := Some e |}]
  | None => []
  end ++
  watch_loop rs.

(** Which case of the [select] that ends [WatchPrefix] is taken: the
    first thing to arrive. *)
Inductive arrival : Type :=
| stopChan
| respChan (r : watchResponse).

Section WithGo.

(** Go's [filepath.Dir], outside this repository. *)
Variable Dir : string → string.

(** The loop [for dir := filepath.Dir(k); dir != "/"; dir = filepath.Dir(dir)]
    from a given [dir]: the map of watched directories and the keys the
    goroutines were started on, in order. *)
Fixpoint watchDirs (fuel : nat) (dir : string) (watchMap : gmap string string)
  (started : list string) : outcome (gmap string string * list string) :=
  match fuel with
  | O => OutOfFuel
  | S fuel' =>
      if decide (dir = "/") then Returns (watchMap, started)
      else
        match watchMap !! dir with
        | Some _ => watchDirs fuel' (Dir dir) watchMap started
        | None => watchDirs fuel' (Dir dir) (<[dir := ""]> watchMap) (started ++ [dir])
        end
  end.

(** [for _, v := range keys] with its [break]: is there a [v] that
    prefixes [k]. *)
Definition matches (keys : list string) (k : string) : bool :=
  existsb (HasPrefix k) keys.

(** "watch all subfolders for changes", over the entries in the order of
    the range. *)
Fixpoint watchFolders (fuel : nat) (keys : list string) (entries : list string)
  (watchMap : gmap string string) (started : list string)
  : outcome (gmap string string * list string) :=
  match entries with
  | [] => Returns (watchMap, started)
  | k :: rest =>
      if matches keys k then
        match watchDirs fuel (Dir k) watchMap started with
        | Returns (watchMap', started') => watchFolders fuel keys rest watchMap' started'
        | Panics msg => Panics msg
        | OutOfFuel => OutOfFuel
        end
      else watchFolders fuel keys rest watchMap started
  end.

(** "watch all keys in prefix for changes". *)
Definition watchKeys (keys : list string) (entries : list string) : list string :=
  filter (λ k, matches keys k = true) entries.

(** [WatchPrefix(prefix, keys, waitIndex, stopChan)]: the keys goroutines
    were started on, and what is returned when [first] arrives first. *)
Definition WatchPrefix (fuel : nat) (c : Client) (prefix : string)
  (keys : list string) (waitIndex : string) (first : arrival)
  : outcome (list string * (string * option error)) :=
  match GetValues fuel c [prefix] with
  | Returns (entries, Some e) => Returns ([], (waitIndex, Some e))
  | Returns (entries, None) =>
      let ks := (map_to_list entries).*1 in
      match watchFolders fuel keys ks ∅ [] with
      | Returns (_, started) =>
          let started := started ++ watchKeys keys ks in
          match first with
          | stopChan => Returns (started, (waitIndex, None))
          | respChan r => Returns (started, (Zookeeper.waitIndex r, err r))
          end
      | Panics msg => Panics msg
      | OutOfFuel => OutOfFuel
      end
  | Panics msg => Panics msg
  | OutOfFuel => OutOfFuel
  end.

End WithGo.

(** What the loops over the directories keep: the directories started
    are the keys of the map, each once, never the root, each one met by
    taking [Dir] once or more from an entry in [good]. *)
Definition watched (Dir : string → string) (good : string → Prop)
  (watchMap : gmap string string) (started : list string) : Prop :=
  NoDup started ∧ ("/" ∉ started) ∧
  (∀ d, d ∈ started ↔ is_Some (watchMap !! d)) ∧
  (∀ d, d ∈ started → ∃ k n, good k ∧ d = Nat.iter (S n) Dir k).

(** [filepath.Dir] on a cleaned path: all but the last element, ["/"] for
    a path directly under the root and ["."] for one without a slash. *)
Fixpoint dropLast (s : string) : option string :=
  match s with
  | EmptyString => None
  | String ch rest =>
      match dropLast rest with
      | Some d => Some (String ch d)
      | None => if Ascii.eqb ch "/" then Some EmptyString else None
      end
  end.

Definition cleanDir (s : string) : string :=
  match dropLast s with
  | Some EmptyString => "/"
  | Some d => d
  | None => "."
  end.

(** The tree below one node of the ensemble: its data and its children
    by name. *)
#[local] Unset Elimination Schemes.
Inductive znode : Type :=
| ZNode (data : string) (kids : list (string * znode)).
#[local] Set Elimination Schemes.

Definition statOf (kids : list (string * znode)) : Stat :=
  {| NumChildren := Z.of_nat (length kids) |}.

(** The ensemble shows the tree [n] at [path]. *)
Fixpoint shows (c : Conn) (path : string) (n : znode) {struct n} : Prop :=
  match n with
  | ZNode data kids =>
      Children c path = (kids.*1, statOf kids, None) ∧
      Get c path = (data, statOf kids, None) ∧
      Exists c path = (true, statOf kids, None) ∧
      foldr (λ kv rest, shows c (path +:+ "/" +:+ kv.1) kv.2 ∧ rest) True kids
  end.

(** The leaves below [path], first child first: every node without
    children, with its value. *)
Fixpoint leaves (path : string) (n : znode) {struct n} : list (string * string) :=
  match n with
  | ZNode data [] => [(path, data)]
  | ZNode _ kids => flat_map (λ kv, leaves (path +:+ "/" +:+ kv.1) kv.2) kids
  end.

Fixpoint depth (n : znode) : nat :=
  match n with
  | ZNode _ kids => S (foldr (λ kv d, Nat.max (depth kv.2) d) 0 kids)
  end.

(** The node [GetValues] walks from for the key [v]: [v] without its
    wildcards, the root being walked as the empty path. *)
Definition walkRoot (v : string) : string :=
  let v := Replace v "/*" "" in
  if decide (v = "/") then "" else v.

(** An ensemble holding a fixed set of nodes, each with its data and the
    names of its children, answering as go-zookeeper does: [Children] and
    [Get] fail with [ErrNoNode] on a missing node, [Exists] reports it
    without an error. Watches never fail. *)
Definition ensemble (nodes : gmap string (string * list string)) : Conn := {|
  Children p :=
    match nodes !! p with
    | Some (_, ks) => (ks, {| NumChildren := Z.of_nat (length ks) |}, None)
    | None => ([], {| NumChildren := 0 |}, Some ErrNoNode)
    end;
  Get p :=
    match nodes !! p with
    | Some (d, ks) => (d, {| NumChildren := Z.of_nat (length ks) |}, None)
    | None => ("", {| NumChildren := 0 |}, Some ErrNoNode)
    end;
  Exists p :=
    match nodes !! p with
    | Some (_, ks) => (true, {| NumChildren := Z.of_nat (length ks) |}, None)
    | None => (false, {| NumChildren := 0 |}, None)
    end;
  GetW _ := None;
  ChildrenW _ := None
|}.

(** [zk.ErrConnectionClosed], and a connection that is closed: every
    call fails with it. *)
Definition ErrConnectionClosed : error := GoError "zk: connection closed".

Definition closedConn : Conn := {|
  Children _ := ([], {| NumChildren := 0 |}, Some ErrConnectionClosed);
  Get _ := ("", {| NumChildren := 0 |}, Some ErrConnectionClosed);
  Exists _ := (false, {| NumChildren := 0 |}, Some ErrConnectionClosed);
  GetW _ := Some ErrConnectionClosed;
  ChildrenW _ := Some ErrConnectionClosed
|}.

(** The store of the specification's example: below [/app] the only leaf
    is [/app/db/host = "x"]. *)
Definition appStore : gmap string (string * list string) :=
  <["/" := ("", ["app"])]>
  (<["/app" := ("", ["db"])]>
  (<["/app/db" := ("", ["host"])]>
  (<["/app/db/host" := ("x", [])]> ∅))).


(** A store whose node [/app/db] lists a child, [gone], that is no
    longer there, beside the leaf [/app/db/host]. *)
Definition deepBrokenStore : gmap string (string * list string) :=
  <["/app" := ("", ["db"])]>
  (<["/app/db" := ("", ["host"; "gone"])]>
  (<["/app/db/host" := ("x", [])]> ∅)).

Definition appTree : znode :=
  ZNode "" [("db", ZNode "" [("host", ZNode "x" [])])].

End Zookeeper.

(** * backends/zookeeper, package ssm *)
Module Ssm.

(** [ssm.ErrCodeParameterNotFound] and [kinesis.ShardIteratorTypeLatest]. *)
Definition ErrCodeParameterNotFound : string := "ParameterNotFound".
Definition ShardIteratorTypeLatest : string := "LATEST".

(** [ssm.Parameter], by the two fields read here. *)
Record SsmParameter : Type := { Name : string; Value : string }.

(** [ssm.SSM] as this package uses it: the pages [GetParametersByPathPages]
    hands to its callback for a path (its own error is dropped by the
    caller), and the answer of [GetParameter] for a name. *)
Record SSM : Type := {
  GetParametersByPathPages : string → list (list SsmParameter);
  GetParameter : string → error + SsmParameter
}.

Record Client : Type := { client : SSM }.

(** The callback of [getParametersWithPrefix] run over the pages: it
    writes the page's parameters and answers [!lastPage]; the pager stops
    at the first [false]. *)
Fixpoint eachPage (pages : list (list SsmParameter))
  (parameters : gmap string string) : gmap string string :=
  match pages with
  | [] => parameters
  | page :: rest =>
      let parameters := fold_left (λ m p, <[Name p := Value p]> m) page parameters in
      let lastPage := bool_decide (rest = []) in
      if negb lastPage then eachPage rest parameters else parameters
  end.

(** [getParametersWithPrefix(prefix)]: its [err] is declared and never
    assigned. *)
Definition getParametersWithPrefix (c : Client) (prefix : string)
  : gmap string string * option error :=
  (eachPage (GetParametersByPathPages (client c) prefix) ∅, None).

(** [getParameter(name)]. *)
Definition getParameter (c : Client) (name : string)
  : gmap string string * option error :=
  match GetParameter (client c) name with
  | inl e => (∅, Some e)
  | inr p => (<[Name p := Value p]> ∅, None)
  end.

(** [GetValues(keys)], as the loop over [keys] from a given [vars]. The
    assertion [err.(awserr.Error)] has no comma-ok form: it panics on an
    error of another type. [for k, v := range resp { vars[k] = v }] is
    the union that prefers [resp]. *)
Fixpoint GetValues_from (c : Client) (keys : list string)
  (vars : gmap string string) : outcome (gmap string string * option error) :=
  match keys with
  | [] => Returns (vars, None)
  | key :: rest =>
      let (resp, err) := getParametersWithPrefix c key in
      match err with
      | Some e => Returns (vars, Some e)
      | None =>
          if (size resp =? 0)%nat then
            let (resp, err) := getParameter c key in
            match err with
            | Some (GoError _) =>
                Panics "interface conversion: error is not awserr.Error"
            | Some (AwsError code message) =>
                if decide (code ≠ ErrCodeParameterNotFound)
                then Returns (vars, Some (AwsError code message))
                else GetValues_from c rest (resp ∪ vars)
            | None => GetValues_from c rest (resp ∪ vars)
            end
          else GetValues_from c rest (resp ∪ vars)
      end
  end.

Definition GetValues (c : Client) (keys : list string)
  : outcome (gmap string string * option error) :=
  GetValues_from c keys ∅.

(** [Event]; [Time] is kept as the text it was decoded from. *)
Record Event : Type := {
  Version : string;
  ID : string;
  DetailType : string;
  Source : string;
  Account : string;
  Time : string;
  Region : string;
  Resources : list string;
  Detail_Name : string;
  Detail_Type : string;
  Detail_Operation : string
}.

(** [var event Event]: the zero value. *)
Definition zeroEvent : Event :=
  {| Version := ""; ID := ""; DetailType := ""; Source := ""; Account := "";
     Time := ""; Region := ""; Resources := []; Detail_Name := "";
     Detail_Type := ""; Detail_Operation := "" |}.

(** [kinesis.Record] and [kinesis.GetRecordsOutput], by the fields read
    here. [NextShardIterator] is [nil] once the shard is closed. *)
Record KRecord : Type := { Data : list Byte.byte }.
Record GetRecordsOutput : Type := {
  Records : list KRecord;
  NextShardIterator : option string
}.

(** A Go channel, by its name. *)
Definition chan : Type := string.

(** What [WatchPrefix] can ask of the world: the three Kinesis calls,
    with the fields of their inputs, [time.Sleep], and a receive on a
    channel that does not block, telling whether a value was there.
    [DescribeStream] answers with the shard ids of the stream. *)
Variant watchE : Type → Type :=
| DescribeStream (StreamName : string) : watchE (error + list string)
| GetShardIterator (ShardId StreamName ShardIteratorType : string)
  : watchE (error + string)
| GetRecords (ShardIterator : option string) : watchE (error + GetRecordsOutput)
| Sleep (d : Z) : watchE unit
| Receive (ch : chan) : watchE bool.

#[global] Instance itree_ret {E} : MRet (itree E) := λ A a, Ret a.
#[global] Instance itree_bind {E} : MBind (itree E) := λ A B f t, ITree.bind t f.

(** [return *shardIterator, err]. *)
Definition return_deref (shardIterator : option string) (err : option error)
  : outcome (string * option error) :=
  match shardIterator with
  | Some s => Returns (s, err)
  | None => Panics "invalid memory address or nil pointer dereference"
  end.

Section WithGo.

(** [json.Unmarshal(data, &event)], outside this repository: it writes
    into the [event] it is given. *)
Variable Unmarshal : list Byte.byte → Event → Event * option error.

(** [for _, record := range getRecordsOutput.Records]: [Some err] when
    the loop returns (with a decode error, or with [nil] on a match),
    [None] when it runs to its end. *)
Fixpoint scanRecords (keys : list string) (records : list KRecord)
  (event : Event) : option (option error) :=
  match records with
  | [] => None
  | record :: rest =>
      let (event, err) := Unmarshal (Data record) event in
      match err with
      | Some e => Some (Some e)
      | None =>
          if existsb (HasPrefix (Detail_Name event)) keys then Some None
          else scanRecords keys rest event
      end
  end.

(** One round of the [for] loop of [WatchPrefix]: [inl] to go round
    again with the new [shardIterator], [inr] to return. *)
Definition pollOnce (keys : list string) (shardIterator : option string)
  : itree watchE (option string + outcome (string * option error)) :=
  r ← ITree.trigger (GetRecords shardIterator);
  match r with
  | inl e => Ret (inr (return_deref shardIterator (Some e)))
  | inr getRecordsOutput =>
      let shardIterator := NextShardIterator getRecordsOutput in
      match scanRecords keys (Records getRecordsOutput) zeroEvent with
      | Some err => Ret (inr (return_deref shardIterator err))
      | None =>
          _ ← ITree.trigger (Sleep (5 * Second));
          Ret (inl shardIterator)
      end
  end.

(** [WatchPrefix(prefix, keys, waitIndex, stopChan)]. The body has no
    receive on [stopChan]. *)
Definition WatchPrefix (prefix : string) (keys : list string)
  (waitIndex : string) (stopChan : chan)
  : itree watchE (outcome (string * option error)) :=
  r ← ITree.trigger (DescribeStream "test");
  match r with
  | inl e => Ret (Returns (waitIndex, Some e))
  | inr shards =>
      match shards with
      | [] => Ret (Panics "index out of range [0] with length 0")
      | shard0 :: _ =>
          if decide (waitIndex = "") then
            r ← ITree.trigger (GetShardIterator shard0 "test" ShardIteratorTypeLatest);
            match r with
            | inl e => Ret (Returns (waitIndex, Some e))
            | inr shardIterator => ITree.iter (pollOnce keys) (Some shardIterator)
            end
          else
            _ ← ITree.trigger (Sleep (5 * Second));
            ITree.iter (pollOnce keys) (Some waitIndex)
      end
  end.

End WithGo.

(** ** Running a call against a world *)

(** A world of type [W] answers every request and moves on. *)
Definition handler (W : Type) : Type := ∀ T, watchE T → W → T * W.

(** One request, without its answer. *)
Definition call : Type := sigT watchE.
Definition called {T} (e : watchE T) : call := existT T e.

Definition isReceive (c : call) : bool :=
  match projT2 c with
  | Receive _ => true
  | _ => false
  end.

(** [run fuel h t w]: the requests [t] makes of the world [h] from [w],
    in order, and how it ends; one unit of [fuel] per step of the tree. *)
Fixpoint run {W R} (fuel : nat) (h : handler W) (t : itree watchE (outcome R))
  (w : W) : list call * outcome R :=
  match fuel with
  | O => ([], OutOfFuel)
  | S fuel' =>
      match observe t with
      | RetF r => ([], r)
      | TauF t' => run fuel' h t' w
      | VisF e k =>
          let (a, w') := h _ e w in
          let (calls, r) := run fuel' h (k a) w' in
          (called e :: calls, r)
      end
  end.

(** A world in which nothing wakes the watch on [keys] while [quiet]
    holds, and [quiet] keeps holding: the stream has a shard, an
    iterator is given, every fetch succeeds and none of its records is
    about a watched key. *)
Definition uneventful {W : Type}
  (Unmarshal : list Byte.byte → Event → Event * option error)
  (keys : list string) (h : handler W) (quiet : W → Prop) : Prop :=
  (∀ w name, quiet w →
     ∃ shard0 shards w',
       h _ (DescribeStream name) w = (inr (shard0 :: shards), w') ∧ quiet w') ∧
  (∀ w shard stream type, quiet w →
     ∃ shardIterator w',
       h _ (GetShardIterator shard stream type) w = (inr shardIterator, w') ∧ quiet w') ∧
  (∀ w shardIterator, quiet w →
     ∃ out w',
       h _ (GetRecords shardIterator) w = (inr out, w') ∧
       scanRecords Unmarshal keys (Records out) zeroEvent = None ∧ quiet w') ∧
  (∀ w d, quiet w → quiet (h _ (Sleep d) w).2).


(** A decoder for the worlds below: the bytes of a record are the name
    of the parameter the event is about. *)
Definition nameDecoder (data : list Byte.byte) (event : Event) : Event * option error :=
  ({| Version := Version event; ID := ID event; DetailType := DetailType event;
      Source := Source event; Account := Account event; Time := Time event;
      Region := Region event; Resources := Resources event;
      Detail_Name := string_of_list_byte data;
      Detail_Type := Detail_Type event;
      Detail_Operation := Detail_Operation event |}, None).

(** A stream with one shard on which nothing happens: every fetch gives
    an empty batch and a next iterator. The stop signal has fired: a
    receive on any channel finds a value. The world has no state. *)
Definition quietStream : handler unit := λ T e w,
  match e in watchE T return T * unit with
  | DescribeStream _ => (inr ["shardId-000000000000"], w)
  | GetShardIterator _ _ _ => (inr "latest", w)
  | GetRecords _ => (inr {| Records := []; NextShardIterator := Some "next" |}, w)
  | Sleep _ => (tt, w)
  | Receive _ => (true, w)
  end.

(** A stream whose every fetch gives one record, about [/app/db/host]. *)
Definition busyStream : handler unit := λ T e w,
  match e in watchE T return T * unit with
  | DescribeStream _ => (inr ["shardId-000000000000"], w)
  | GetShardIterator _ _ _ => (inr "latest", w)
  | GetRecords _ =>
      (inr {| Records := [{| Data := list_byte_of_string "/app/db/host" |}];
              NextShardIterator := Some "next" |}, w)
  | Sleep _ => (tt, w)
  | Receive _ => (true, w)
  end.

(** A stream whose shard has been closed: a fetch gives the last record,
    about [/app/db/host], and no iterator to go on with. *)
Definition closedShard : handler unit := λ T e w,
  match e in watchE T return T * unit with
  | DescribeStream _ => (inr ["shardId-000000000000"], w)
  | GetShardIterator _ _ _ => (inr "latest", w)
  | GetRecords _ =>
      (inr {| Records := [{| Data := list_byte_of_string "/app/db/host" |}];
              NextShardIterator := None |}, w)
  | Sleep _ => (tt, w)
  | Receive _ => (false, w)
  end.

(** A parameter store holding [params]: a path lists, in one page, the
    parameters below it; a name it does not hold is answered with
    [ParameterNotFound], and the name [/denied] with an access error. *)
Definition parameterStore (params : list SsmParameter) : SSM := {|
  GetParametersByPathPages path :=
    [filter (λ p, HasPrefix (Name p) (path +:+ "/") = true) params];
  GetParameter name :=
    if decide (name = "/denied")
    then inl (AwsError "AccessDeniedException" "not authorized")
    else
      match List.find (λ p, bool_decide (Name p = name)) params with
      | Some p => inr p
      | None => inl (AwsError ErrCodeParameterNotFound "")
      end
|}.

Definition appParameters : list SsmParameter :=
  [{| Name := "/app/db/host"; Value := "x" |}].

(** ** Reading the calls of a run *)

Definition isFetch (c : call) : bool :=
  match projT2 c with
  | GetRecords _ => true
  | _ => false
  end.

Definition isSleep (c : call) : bool :=
  match projT2 c with
  | Sleep _ => true
  | _ => false
  end.

(** A sleep of five seconds. *)
Definition isPause (c : call) : bool :=
  match projT2 c with
  | Sleep d => (d =? 5 * Second)%Z
  | _ => false
  end.

(** Every fetch that is not the last call is followed by a sleep of five
    seconds. *)
Fixpoint paced (calls : list call) : bool :=
  match calls with
  | [] => true
  | c1 :: rest =>
      match rest with
      | [] => true
      | c2 :: _ => negb (isFetch c1) || isPause c2
      end && paced rest
  end.

(** The call returned a cursor and a nil error. *)
Definition succeeded (r : outcome (string * option error)) : bool :=
  match r with
  | Returns (_, None) => true
  | _ => false
  end.

End Ssm.

(** * Properties *)

(** ** Assignments to a map *)

Lemma assign_all_app (l1 l2 : list (string * string)) (vars : gmap string string) :
  assign_all (l1 ++ l2) vars = assign_all l2 (assign_all l1 vars).
Proof. unfold assign_all. apply fold_left_app. Qed.

Lemma assign_all_lookup_other (l : list (string * string)) (vars : gmap string string) p :
  p ∉ l.*1 → assign_all l vars !! p = vars !! p.
Proof.
  revert vars. induction l as [|[k v] l IH]; intros vars Hp; [reflexivity|].
  cbn in Hp. apply not_elem_of_cons in Hp as [Hne Hp].
  change (assign_all l (<[k := v]> vars) !! p = vars !! p).
  rewrite IH by assumption. apply lookup_insert_ne. congruence.
Qed.

Lemma assign_all_lookup (l : list (string * string)) (vars : gmap string string) p s :
  NoDup l.*1 → (p, s) ∈ l → assign_all l vars !! p = Some s.
Proof.
  revert vars. induction l as [|[k v] l IH]; intros vars Hnd Hin.
  - inversion Hin.
  - cbn in Hnd. apply NoDup_cons in Hnd as [Hk Hnd].
    change (assign_all l (<[k := v]> vars) !! p = Some s).
    apply elem_of_cons in Hin as [Heq | Hin].
    + inversion Heq; subst. rewrite assign_all_lookup_other by assumption.
      apply lookup_insert_eq.
    + apply IH; assumption.
Qed.

(** ** Prefixes *)

Lemma HasPrefix_refl s : HasPrefix s s = true.
Proof.
  induction s as [|ch s IH]; [reflexivity|].
  cbn [HasPrefix append]. rewrite Ascii.eqb_refl. exact IH.
Qed.

Lemma HasPrefix_app s t : HasPrefix (s +:+ t) s = true.
Proof.
  induction s as [|ch s IH]; [reflexivity|].
  change (String ch s +:+ t) with (String ch (s +:+ t)).
  cbn [HasPrefix]. rewrite Ascii.eqb_refl. exact IH.
Qed.

Lemma HasPrefix_app_l p s t : HasPrefix p (s +:+ t) = true → HasPrefix p s = true.
Proof.
  revert p. induction s as [|ch s IH]; intros p H; [reflexivity|].
  change (String ch s +:+ t) with (String ch (s +:+ t)) in H.
  cbn [HasPrefix] in H |- *. destruct p as [|ch' p]; [discriminate|].
  destruct (Ascii.eqb ch ch'); [apply IH; exact H | discriminate].
Qed.

Lemma assign_all_is_Some (l : list (string * string)) (vars : gmap string string) k :
  is_Some (assign_all l vars !! k) ↔ k ∈ l.*1 ∨ is_Some (vars !! k).
Proof.
  revert vars. induction l as [|[k' v] l IH]; intros vars.
  - cbn. split; [auto | intros [H|H]; [inversion H | exact H]].
  - change (assign_all ((k', v) :: l) vars) with (assign_all l (<[k' := v]> vars)).
    rewrite IH. cbn [fmap list_fmap fst]. rewrite elem_of_cons.
    destruct (decide (k' = k)) as [->|Hne].
    + rewrite lookup_insert_eq. split; [intros _; left; left; reflexivity | eauto].
    + rewrite lookup_insert_ne by exact Hne. split; intros [H|H]; auto.
      destruct H as [H|H]; [congruence | auto].
Qed.

Lemma assign_all_perm (l l' : list (string * string)) (vars : gmap string string) :
  l ≡ₚ l' → NoDup l.*1 → assign_all l vars = assign_all l' vars.
Proof.
  intros Hperm Hnd. apply map_eq. intros p.
  assert (NoDup l'.*1) as Hnd' by (rewrite <- Hperm; exact Hnd).
  destruct (decide (p ∈ l.*1)) as [Hin|Hnin].
  - apply list_elem_of_fmap in Hin as ([p' s] & -> & Hin). cbn.
    rewrite (assign_all_lookup l vars p' s Hnd Hin).
    rewrite Hperm in Hin. rewrite (assign_all_lookup l' vars p' s Hnd' Hin). reflexivity.
  - rewrite assign_all_lookup_other by exact Hnin.
    rewrite Hperm in Hnin. rewrite assign_all_lookup_other by exact Hnin. reflexivity.
Qed.

Module RancherSpec.
Import Rancher.

Lemma value_ind (P : value → Prop)
  (HMap : ∀ m, Forall (λ kv, P kv.2) m → P (VMap m))
  (HSlice : ∀ l, Forall P l → P (VSlice l))
  (HBool : ∀ b, P (VBool b))
  (HString : ∀ s, P (VString s))
  (HFloat : ∀ f, P (VFloat64 f))
  (HNil : P VNil)
  (HOther : ∀ t, P (VOther t)) :
  ∀ v, P v.
Proof.
  fix IH 1. intros [m|l|b|s|f| |t];
    [| | apply HBool | apply HString | apply HFloat | apply HNil | apply HOther].
  - apply HMap. induction m as [|[k v] m IHm]; constructor; [apply IH | apply IHm].
  - apply HSlice. induction l as [|v l IHl]; constructor; [apply IH | apply IHl].
Qed.

Lemma withLogged_nil w : withLogged [] w = w.
Proof. destruct w; reflexivity. Qed.

Lemma withLogged_app l1 l2 w :
  withLogged (l1 ++ l2) w = withLogged l2 (withLogged l1 w).
Proof. unfold withLogged. cbn. rewrite rev_app_distr, app_assoc. reflexivity. Qed.

(** A loop whose body writes the entries [f i a] and logs the lines
    [g i a] writes and logs them all, in order. *)
Lemma forRange_entries {A} (body : nat → A → gmap string string → M (gmap string string))
  (f : nat → A → list (string * string)) (g : nat → A → list string) (l : list A) :
  Forall (λ a, ∀ i vars w,
            body i a vars w = Returns (assign_all (f i a) vars, withLogged (g i a) w)) l →
  ∀ i vars w,
    forRange body i l vars w
    = Returns (assign_all (eachIndexed f i l) vars, withLogged (eachIndexed g i l) w).
Proof.
  induction 1 as [|a l Ha _ IH]; intros i vars w; cbn.
  - rewrite withLogged_nil. reflexivity.
  - unfold mbind, M_bind. rewrite Ha, IH, assign_all_app, withLogged_app. reflexivity.
Qed.

Lemma segment_pathSegment i item w :
  nameIsString item = true → segment i item w = Returns (pathSegment i item, w).
Proof.
  destruct item as [m| | | | | |]; try reflexivity.
  unfold nameIsString, segment, pathSegment.
  destruct (index m "name") as [[]|]; intros; try reflexivity; discriminate.
Qed.

Section WithGo.
Variable FormatFloat : float → string.

Lemma treeWalk_flattened (val : value) :
  wellNamed val = true →
  ∀ root vars w,
    treeWalk FormatFloat root val vars w
    = Returns ((assign_all (flattened FormatFloat root val) vars, None),
               withLogged (diagnostics val) w).
Proof.
  induction val as [m IH|l IH|b|s|f| |t] using value_ind; intros Hwn root vars w;
    try (cbn; rewrite withLogged_nil; destruct b; reflexivity);
    try (cbn; rewrite withLogged_nil; reflexivity).
  - cbn [treeWalk flattened diagnostics]. unfold mbind at 1. unfold M_bind at 1.
    rewrite (forRange_entries _
               (λ _ kv, flattened FormatFloat (root +:+ "/" +:+ kv.1) kv.2)
               (λ _ kv, diagnostics kv.2)); [reflexivity|].
    cbn in Hwn. rewrite forallb_forall in Hwn.
    rewrite Forall_forall in IH |- *. intros kv Hkv _ vars' w'.
    unfold mbind, M_bind. rewrite IH; [reflexivity | assumption |].
    apply Hwn. apply list_elem_of_In. assumption.
  - cbn [treeWalk flattened diagnostics]. unfold mbind at 1. unfold M_bind at 1.
    rewrite (forRange_entries _
               (λ i item, flattened FormatFloat (root +:+ "/" +:+ pathSegment i item) item)
               (λ _ item, diagnostics item)); [reflexivity|].
    cbn in Hwn. rewrite forallb_forall in Hwn.
    rewrite Forall_forall in IH |- *. intros item Hitem i vars' w'.
    apply list_elem_of_In in Hitem as Hin. apply Hwn in Hin.
    apply andb_true_iff in Hin as [Hname Hwell].
    unfold mbind, M_bind. rewrite segment_pathSegment by assumption.
    rewrite IH; [reflexivity | assumption | assumption].
  - reflexivity.
Qed.

End WithGo.

(** C8, at the failing input: on [[{"name":1}]] the walk panics at the
    assertion [name.(string)], whatever the root, the map and the world;
    while a value of a type the walk does not know is passed over with a
    diagnostic and the walk goes on to the entries after it. *)
Theorem treeWalk_misnamed_panics (FormatFloat : float → string) :
  (∀ root vars w,
     treeWalk FormatFloat root misnamed vars w
     = Panics "interface conversion: interface {} is not string") ∧
  (∀ root typeName vars w,
     treeWalk FormatFloat root (VSlice [VOther typeName; VNil]) vars w
     = Returns ((<[root +:+ "/1" := "null"]> vars, None),
                withLogged ["Unknown type: " +:+ typeName] w)).
Proof.
  split.
  - intros root vars w. reflexivity.
  - intros root typeName vars w.
    rewrite treeWalk_flattened by reflexivity. reflexivity.
Qed.

(** C4, as the claim states its example: the walk of the array rooted at
    [/regions] returns four entries, the two names among them, and not
    the two entries of the claim. *)
Lemma treeWalk_regions_keeps_names :
  treeWalk smallFloat "/regions" regions ∅ emptyWorld
  = Returns ((<["/regions/eu/name" := "eu"]>
              (<["/regions/eu/val" := "1"]>
              (<["/regions/us/name" := "us"]>
              (<["/regions/us/val" := "2"]> ∅))), None), emptyWorld) ∧
  (<["/regions/eu/name" := "eu"]>
   (<["/regions/eu/val" := "1"]>
   (<["/regions/us/name" := "us"]>
   (<["/regions/us/val" := "2"]> ∅))) : gmap string string)
  ≠ <["/regions/eu/val" := "1"]> (<["/regions/us/val" := "2"]> ∅).
Proof.
  split; [vm_compute; reflexivity|].
  intros Heq.
  apply (f_equal (λ m : gmap string string, m !! "/regions/eu/name")) in Heq.
  vm_compute in Heq. discriminate.
Qed.

(** C4, amended: on every value whose array elements carry string names,
    the walk returns, having written into the map exactly the flat
    entries of the value in the order of the walk: a scalar at [p] as
    [p -> rendered], an object's entries under [root/key], an array's
    elements under [root/name] or [root/index]. When no two leaves share
    a path every leaf is found at its path. The name of an array element
    is a leaf like any other: the array of the example flattens to four
    entries. *)
Theorem treeWalk_flattens (FormatFloat : float → string) :
  (∀ root val vars w,
     wellNamed val = true →
     treeWalk FormatFloat root val vars w
     = Returns ((assign_all (flattened FormatFloat root val) vars, None),
                withLogged (diagnostics val) w)) ∧
  (∀ root val vars w p s,
     wellNamed val = true →
     NoDup (flattened FormatFloat root val).*1 →
     (p, s) ∈ flattened FormatFloat root val →
     ∃ vars', treeWalk FormatFloat root val vars w
              = Returns ((vars', None), withLogged (diagnostics val) w)
              ∧ vars' !! p = Some s) ∧
  (FormatFloat 1%float = "1" → FormatFloat 2%float = "2" →
   ∀ w, treeWalk FormatFloat "/regions" regions ∅ w
        = Returns ((<["/regions/eu/name" := "eu"]>
                    (<["/regions/eu/val" := "1"]>
                    (<["/regions/us/name" := "us"]>
                    (<["/regions/us/val" := "2"]> ∅))), None), w)).
Proof.
  split; [|split].
  - intros root val vars w Hwn. apply treeWalk_flattened. assumption.
  - intros root val vars w p s Hwn Hnd Hin.
    eexists. split; [apply treeWalk_flattened; assumption|].
    apply assign_all_lookup; assumption.
  - intros H1 H2 w. rewrite treeWalk_flattened by reflexivity.
    cbn [flattened regions eachIndexed pathSegment index diagnostics app fst snd].
    repeat (case_decide; try congruence).
    cbn [app]. rewrite H1, H2, withLogged_nil. reflexivity.
Qed.

(** The array of the example under a formatter that prints 1 and 2 as
    ["1"] and ["2"]. *)
Lemma treeWalk_flattens_witness :
  treeWalk smallFloat "/regions" regions ∅ emptyWorld
  = Returns ((assign_all (flattened smallFloat "/regions" regions) ∅, None), emptyWorld) ∧
  (∃ vars',
     treeWalk smallFloat "/regions" regions ∅ emptyWorld
     = Returns ((vars', None), emptyWorld) ∧ vars' !! "/regions/eu/val" = Some "1") ∧
  treeWalk smallFloat "/regions" regions ∅ emptyWorld
  = Returns ((<["/regions/eu/name" := "eu"]>
              (<["/regions/eu/val" := "1"]>
              (<["/regions/us/name" := "us"]>
              (<["/regions/us/val" := "2"]> ∅))), None), emptyWorld).
Proof.
  destruct (treeWalk_flattens smallFloat) as (Hwalk & Hleaf & Hregions).
  split; [|split].
  - apply (Hwalk "/regions" regions ∅ emptyWorld). reflexivity.
  - apply (Hleaf "/regions" regions ∅ emptyWorld "/regions/eu/val" "1").
    + reflexivity.
    + apply (bool_decide_unpack _). vm_compute. exact I.
    + apply (bool_decide_unpack _). vm_compute. exact I.
  - apply Hregions; vm_compute; reflexivity.
Defined.

(** C3, as the claim states it: asked with the cursor 7 the call answers
    with the cursor 0. *)
Lemma WatchPrefix_resets_cursor :
  WatchPrefix "/services" ["/services"] 7 = (0%Z, None) ∧
  WatchPrefix "/services" ["/services"] 7 ≠ (7%Z, None).
Proof. split; [reflexivity | discriminate]. Qed.

(** C3, amended: for every input the call returns at once the cursor 0
    and a nil error, whatever the prefix, the keys and the input cursor;
    so it hands back the input cursor only when that cursor is 0. *)
Theorem WatchPrefix_returns_zero (prefix : string) (keys : list string) (waitIndex : Z) :
  WatchPrefix prefix keys waitIndex = (0%Z, None) ∧
  (∀ prefix' keys' waitIndex',
     WatchPrefix prefix' keys' waitIndex' = WatchPrefix prefix keys waitIndex) ∧
  (WatchPrefix prefix keys waitIndex = (waitIndex, None) ↔ waitIndex = 0%Z).
Proof.
  split; [reflexivity|]. split; [reflexivity|].
  unfold WatchPrefix. split.
  - intros Heq. inversion Heq. reflexivity.
  - intros ->. reflexivity.
Qed.

(** ** The connection bootstrap *)














Section WithDecoder.
Variable FormatFloat : float → string.
Variable Unmarshal : list Byte.byte → value * option error.

(** *** GetValues *)

Lemma makeMetaDataRequest_returns c path w :
  makeMetaDataRequest c path w
  = Returns (match httpClient c (requests w) (Join [url c; path] "") with
             | inl e => ([], Some e)
             | inr r => r
             end, World (S (requests w)) (slept w) (logged w)).
Proof.
  unfold makeMetaDataRequest.
  destruct (httpClient c (requests w) (Join [url c; path] "")) as [e|[body rerr]];
    reflexivity.
Qed.




End WithDecoder.

(** ** Where the walk panics and what it leaves alone *)

Lemma segment_panics i item w :
  nameIsString item = false →
  segment i item w = Panics "interface conversion: interface {} is not string".
Proof.
  destruct item as [m| | | | | |]; try discriminate.
  unfold nameIsString, segment.
  destruct (index m "name") as [[]|]; intros; try reflexivity; discriminate.
Qed.

(** A loop whose body returns or panics, and panics on one element at
    least, panics. *)
Lemma forRange_panics {A V} (body : nat → A → V → M V) (good : A → bool) msg (l : list A) :
  Forall (λ a, if good a
               then ∀ i vars w, ∃ r, body i a vars w = Returns r
               else ∀ i vars w, body i a vars w = Panics msg) l →
  forallb good l = false →
  ∀ i vars w, forRange body i l vars w = Panics msg.
Proof.
  induction 1 as [|a l Ha _ IH]; intros Hbad i vars w; [discriminate|].
  cbn in Hbad |- *. unfold mbind, M_bind.
  destruct (good a).
  - destruct (Ha i vars w) as [[vars' w'] ->]. apply IH. exact Hbad.
  - rewrite Ha. reflexivity.
Qed.

Section WithGo.
Variable FormatFloat : float → string.

Lemma treeWalk_panics (val : value) :
  wellNamed val = false →
  ∀ root vars w,
    treeWalk FormatFloat root val vars w
    = Panics "interface conversion: interface {} is not string".
Proof.
  induction val as [m IH|l IH|b|s|f| |t] using value_ind; intros Hwn root vars w;
    try discriminate.
  - cbn [treeWalk]. unfold mbind at 1. unfold M_bind at 1.
    rewrite (forRange_panics _ (λ kv, wellNamed kv.2)
               "interface conversion: interface {} is not string");
      [reflexivity | | exact Hwn].
    + rewrite Forall_forall in IH |- *. intros kv Hkv.
      destruct (wellNamed kv.2) eqn:Hw.
      * intros i vars' w'. unfold mbind, M_bind.
        rewrite treeWalk_flattened by assumption. eexists. reflexivity.
      * intros i vars' w'. unfold mbind, M_bind. rewrite IH by assumption. reflexivity.
  - cbn [treeWalk]. unfold mbind at 1. unfold M_bind at 1.
    rewrite (forRange_panics _ (λ item, nameIsString item && wellNamed item)
               "interface conversion: interface {} is not string");
      [reflexivity | | exact Hwn].
    + rewrite Forall_forall in IH |- *. intros item Hitem.
      destruct (nameIsString item) eqn:Hn; cbn [andb].
      * destruct (wellNamed item) eqn:Hw.
        -- intros i vars' w'. unfold mbind, M_bind.
           rewrite segment_pathSegment by assumption.
           rewrite treeWalk_flattened by assumption. eexists. reflexivity.
        -- intros i vars' w'. unfold mbind, M_bind.
           rewrite segment_pathSegment by assumption.
           rewrite IH by assumption. reflexivity.
      * intros i vars' w'. unfold mbind, M_bind.
        rewrite segment_panics by assumption. reflexivity.
Qed.

Lemma eachIndexed_elem {A B} (f : nat → A → list B) (l : list A) b :
  ∀ i, b ∈ eachIndexed f i l → ∃ j a, a ∈ l ∧ b ∈ f j a.
Proof.
  induction l as [|a l IH]; intros i Hin; cbn in Hin; [inversion Hin|].
  apply elem_of_app in Hin as [Hin|Hin].
  - exists i, a. split; [apply list_elem_of_here | exact Hin].
  - destruct (IH _ Hin) as (j & a' & Ha' & Hb). exists j, a'.
    split; [apply list_elem_of_further; exact Ha' | exact Hb].
Qed.

(** Every flat entry of a value lies at or below the root. *)
Lemma flattened_under_root (val : value) :
  ∀ root p s, (p, s) ∈ flattened FormatFloat root val → HasPrefix p root = true.
Proof.
  induction val as [m IH|l IH|b|s'|f| |t] using value_ind; intros root p s Hin;
    cbn [flattened] in Hin;
    try (apply list_elem_of_singleton in Hin; inversion Hin; subst; apply HasPrefix_refl).
  - apply eachIndexed_elem in Hin as (j & kv & Hkv & Hin).
    rewrite Forall_forall in IH. apply (IH kv Hkv) in Hin.
    apply HasPrefix_app_l in Hin. exact Hin.
  - apply eachIndexed_elem in Hin as (j & item & Hitem & Hin).
    rewrite Forall_forall in IH. apply (IH item Hitem) in Hin.
    apply HasPrefix_app_l in Hin. exact Hin.
  - inversion Hin.
Qed.

Lemma treeWalk_returns_wellNamed root val vars w r :
  treeWalk FormatFloat root val vars w = Returns r → wellNamed val = true.
Proof.
  intros H. destruct (wellNamed val) eqn:Hw; [reflexivity|].
  rewrite treeWalk_panics in H by assumption. discriminate.
Qed.

End WithGo.

(** X1: [treeWalk] returns exactly on the values whose array elements
    carry string names, and panics at the assertion on every other
    value: never anything else, whatever the root, the map and the
    world. *)
Theorem treeWalk_returns_or_panics (FormatFloat : float → string) (root : string)
  (val : value) (vars : gmap string string) (w : world) :
  if wellNamed val
  then ∃ r, treeWalk FormatFloat root val vars w = Returns r
  else treeWalk FormatFloat root val vars w
       = Panics "interface conversion: interface {} is not string".
Proof.
  destruct (wellNamed val) eqn:Hw.
  - rewrite treeWalk_flattened by assumption. eexists. reflexivity.
  - apply treeWalk_panics. assumption.
Qed.

(** What a walk that returns leaves alone. *)
Lemma treeWalk_untouched (FormatFloat : float → string) (root : string) (val : value)
  (vars vars' : gmap string string) (err : option error) (w w' : world) :
  treeWalk FormatFloat root val vars w = Returns ((vars', err), w') →
  err = None ∧
  (∀ p, HasPrefix p root = false → vars' !! p = vars !! p) ∧
  dom vars ⊆ dom vars' ∧
  requests w' = requests w ∧ slept w' = slept w.
Proof.
  intros H. pose proof (treeWalk_returns_wellNamed _ _ _ _ _ _ H) as Hw.
  rewrite treeWalk_flattened in H by assumption. inversion H; subst; clear H.
  split; [reflexivity|]. split; [|split; [|split; reflexivity]].
  - intros p Hp. apply assign_all_lookup_other. intros Hin.
    apply list_elem_of_fmap in Hin as ([p' s] & -> & Hin).
    apply flattened_under_root in Hin. cbn in Hp. congruence.
  - generalize (flattened FormatFloat root val). intros l. revert vars.
    induction l as [|[k v] l IH]; intros vars; [reflexivity|].
    change (dom vars ⊆ dom (assign_all l (<[k := v]> vars))).
    etransitivity; [|apply IH]. rewrite dom_insert_L. set_solver.
Qed.

(** X2: a walk that returns has changed only entries at or below its
    root, returns a nil error, and has sent no request and slept no
    time. *)
Theorem treeWalk_frame (FormatFloat : float → string) (root : string) (val : value)
  (vars vars' : gmap string string) (err : option error) (w w' : world) :
  treeWalk FormatFloat root val vars w = Returns ((vars', err), w') →
  err = None ∧
  (∀ p, HasPrefix p root = false → vars' !! p = vars !! p) ∧
  dom vars ⊆ dom vars' ∧
  requests w' = requests w ∧ slept w' = slept w.
Proof. apply treeWalk_untouched. Qed.

Lemma treeWalk_frame_witness :
  ∃ vars',
    treeWalk smallFloat "/regions" regions (<["/other" := "kept"]> ∅) emptyWorld
    = Returns ((vars', None), emptyWorld) ∧ vars' !! "/other" = Some "kept".
Proof.
  eexists. split; [vm_compute; reflexivity|].
  refine (eq_trans
            (proj1 (proj2 (treeWalk_frame smallFloat "/regions" regions
                             (<["/other" := "kept"]> ∅) _ None emptyWorld emptyWorld _))
               "/other" _) _);
    vm_compute; reflexivity.
Defined.

(** ** The bootstrap ends *)



(** ** What GetValues asks for *)

Section WithDecoder.
Variable FormatFloat : float → string.
Variable Unmarshal : list Byte.byte → value * option error.

Lemma GetValues_from_requests c keys : ∀ vars w vars' err w',
  GetValues_from FormatFloat Unmarshal c keys vars w = Returns ((vars', err), w') →
  slept w' = slept w ∧
  requests w' ≤ requests w + length keys ∧
  (err = None → requests w' = requests w + length keys) ∧
  dom vars ⊆ dom vars' ∧
  (∀ p, vars' !! p ≠ vars !! p → ∃ key, key ∈ keys ∧ HasPrefix p key = true).
Proof.
  induction keys as [|key keys IH]; intros vars w vars' err w' H.
  - cbn in H. inversion H; subst. cbn.
    repeat split; try reflexivity; try lia. intros p Hp. congruence.
  - cbn [GetValues_from] in H. unfold mbind, M_bind in H.
    rewrite makeMetaDataRequest_returns in H. cbn [fst snd] in H.
    destruct (match httpClient c (requests w) (Join [url c; key] "") with
              | inl e => ([], Some e) | inr r => r end) as [body [e|]].
    { inversion H; subst. cbn.
      repeat split; try reflexivity; try lia; try discriminate.
      intros p Hp. congruence. }
    cbn [fst snd] in H.
    destruct (Unmarshal body) as [jsonResponse [e|]].
    { inversion H; subst. cbn.
      repeat split; try reflexivity; try lia; try discriminate.
      intros p Hp. congruence. }
    destruct (treeWalk FormatFloat key jsonResponse vars
                (World (S (requests w)) (slept w) (logged w)))
      as [[[vars1 e1] w1]| |] eqn:Hwalk; try discriminate.
    apply treeWalk_untouched in Hwalk as (-> & Hother & Hdom & Hreq & Hslept).
    cbn [fst snd] in H. apply IH in H as (Hs & Hle & Heq & Hd & Hp).
    cbn in Hreq, Hslept. cbn [length].
    split; [congruence|]. split; [lia|]. split; [intros He; rewrite Heq by exact He; lia|].
    split; [etransitivity; eassumption|].
    intros p Hne. destruct (decide (vars' !! p = vars1 !! p)) as [Hsame|Hchanged].
    + exists key. split; [apply list_elem_of_here|].
      destruct (HasPrefix p key) eqn:Hpre; [reflexivity|].
      rewrite Hsame, Hother in Hne by assumption. congruence.
    + destruct (Hp p Hchanged) as (k & Hk & Hpre). exists k.
      split; [apply list_elem_of_further; exact Hk | exact Hpre].
Qed.

End WithDecoder.

(** X4: a [GetValues] that returns has sent one request for each key up
    to the one that failed, one for every key when the error is nil; it
    has slept no time, removed no entry, and every entry it wrote lies
    at or below one of the keys asked for. *)
Theorem GetValues_requests (FormatFloat : float → string)
  (Unmarshal : list Byte.byte → value * option error) (c : Client)
  (keys : list string) (w w' : world) (vars' : gmap string string) (err : option error) :
  GetValues FormatFloat Unmarshal c keys w = Returns ((vars', err), w') →
  slept w' = slept w ∧
  requests w' ≤ requests w + length keys ∧
  (err = None → requests w' = requests w + length keys) ∧
  (∀ p, is_Some (vars' !! p) → ∃ key, key ∈ keys ∧ HasPrefix p key = true).
Proof.
  intros H. apply GetValues_from_requests in H as (Hs & Hle & Heq & _ & Hp).
  repeat split; try assumption.
  intros p [s Hs']. apply Hp. rewrite Hs', lookup_empty. discriminate.
Qed.

Lemma GetValues_requests_witness :
  requests (World 2 [] []) ≤ requests emptyWorld + length ["/regions"; "/missing"] ∧
  ∃ key, key ∈ ["/regions"; "/missing"] ∧ HasPrefix "/regions/eu/val" key = true.
Proof.
  destruct (GetValues_requests smallFloat twoDocuments regionsEndpoint
              ["/regions"; "/missing"] emptyWorld (World 2 [] [])
              (<["/regions/eu/name" := "eu"]>
               (<["/regions/eu/val" := "1"]>
               (<["/regions/us/name" := "us"]>
               (<["/regions/us/val" := "2"]> ∅))))
              (Some (GoError "no route to host"))) as (_ & Hle & _ & Hunder).
  - vm_compute. reflexivity.
  - split; [exact Hle|]. apply (Hunder "/regions/eu/val"). vm_compute. eauto.
Defined.

(** ** Configure *)

Lemma string_app_nil_r s : s +:+ "" = s.
Proof.
  induction s as [|ch s IH]; [reflexivity|].
  change (String ch s +:+ "") with (String ch (s +:+ "")). rewrite IH. reflexivity.
Qed.

Lemma string_app_assoc s t u : (s +:+ t) +:+ u = s +:+ (t +:+ u).
Proof.
  induction s as [|ch s IH]; [reflexivity|].
  change ((String ch s +:+ t) +:+ u) with (String ch ((s +:+ t) +:+ u)).
  rewrite IH. reflexivity.
Qed.

(** Every string is a piece without a comma followed by nothing or by
    a comma and the rest. *)
Lemma first_piece s :
  ∃ head tail,
    s = head +:+ tail ∧ hasChar "," head = false ∧
    (tail = "" ∨ HasPrefix tail "," = true).
Proof.
  induction s as [|ch s (head & tail & Hs & Hhead & Htail)].
  - exists "", "". repeat split. left. reflexivity.
  - destruct (Ascii.eqb "," ch) eqn:Hch.
    + exists "", (String ch s). repeat split. right. cbn [HasPrefix]. rewrite Hch. reflexivity.
    + exists (String ch head), tail. split; [|split; [|exact Htail]].
      * rewrite Hs. reflexivity.
      * cbn [hasChar]. rewrite Hch. exact Hhead.
Qed.

(** [Split] on commas gives that first piece first. *)
Lemma split_from_first_piece head : ∀ cur tail,
  hasChar "," head = false → tail = "" ∨ HasPrefix tail "," = true →
  ∃ rest, split_from "," 0 cur (head +:+ tail) = (cur +:+ head) :: rest.
Proof.
  induction head as [|ch head IH]; intros cur tail Hhead Htail.
  - rewrite string_app_nil_r. change ("" +:+ tail) with tail.
    destruct Htail as [->|Htail]; [eexists; reflexivity|].
    destruct tail as [|ch' tail]; [discriminate|].
    cbn [split_from]. rewrite Htail. eexists. reflexivity.
  - cbn [hasChar] in Hhead. apply orb_false_iff in Hhead as [Hch Hhead].
    change (String ch head +:+ tail) with (String ch (head +:+ tail)).
    cbn [split_from HasPrefix]. rewrite Hch.
    destruct (IH (cur +:+ String ch "") tail Hhead Htail) as [rest ->].
    exists rest. rewrite string_app_assoc. reflexivity.
Qed.

Section Configuring.
Variable Config : Type.
Variable BackendNodes : Config → string.
Variable Decode : gmap string string → Config * option error.

(** X5: [Configure] fails at once, leaving the client as it was, when
    the configuration does not decode; otherwise it sets the URL to
    [http://] followed by the text of the backend nodes before their
    first comma, logs it and returns what [testConnection] returns on
    that URL. [strings.Split] never gives an empty slice, so the default
    [MetaDataURL] is never used: with no backend nodes the URL is
    [http://]. *)
Theorem Configure_url (fuel : nat) (c : Client) (configRaw : gmap string string)
  (w : world) :
  (∀ config e,
     Decode configRaw = (config, Some e) →
     Configure Config BackendNodes Decode fuel c configRaw w = Returns ((c, Some e), w)) ∧
  (∀ config,
     Decode configRaw = (config, None) →
     ∃ head tail,
       BackendNodes config = head +:+ tail ∧ hasChar "," head = false ∧
       (tail = "" ∨ HasPrefix tail "," = true) ∧
       Configure Config BackendNodes Decode fuel c configRaw w
       = match testConnection fuel
                 {| url := "http://" +:+ head; httpClient := httpClient c |}
                 (withLogged ["Using Rancher Metadata URL: http://" +:+ head] w) with
         | Returns (err, w') =>
             Returns (({| url := "http://" +:+ head; httpClient := httpClient c |}, err), w')
         | Panics msg => Panics msg
         | OutOfFuel => OutOfFuel
         end).
Proof.
  split.
  - intros config e Hdec. unfold Configure. rewrite Hdec. reflexivity.
  - intros config Hdec.
    destruct (first_piece (BackendNodes config)) as (head & tail & Hs & Hhead & Htail).
    exists head, tail. split; [exact Hs|]. split; [exact Hhead|]. split; [exact Htail|].
    unfold Configure. rewrite Hdec. unfold Split. rewrite Hs.
    destruct (split_from_first_piece head "" tail Hhead Htail) as [rest ->].
    change ("" +:+ head) with head. cbn [length Nat.ltb Nat.leb].
    unfold mbind, M_bind, mret, M_ret, Printf, withLogged. cbn [rev app].
    destruct (testConnection fuel _ _) as [[err w']| |]; reflexivity.
Qed.

End Configuring.

Lemma Configure_url_witness :
  ∃ head tail,
    "" = head +:+ tail ∧ hasChar "," head = false ∧
    (tail = "" ∨ HasPrefix tail "," = true) ∧
    Configure string id readNodes 6 liveEndpoint ∅ emptyWorld
    = match testConnection 6
              {| url := "http://" +:+ head; httpClient := httpClient liveEndpoint |}
              (withLogged ["Using Rancher Metadata URL: http://" +:+ head] emptyWorld) with
      | Returns (err, w') =>
          Returns (({| url := "http://" +:+ head;
                       httpClient := httpClient liveEndpoint |}, err), w')
      | Panics msg => Panics msg
      | OutOfFuel => OutOfFuel
      end.
Proof.
  apply (proj2 (Configure_url string id readNodes 6 liveEndpoint ∅ emptyWorld) "").
  reflexivity.
Defined.

(** ** The order of the ranges *)

Lemma reordered_ind (P : value → value → Prop)
  (Hsame : ∀ v, P v v)
  (Hmap : ∀ m m1 m',
      Forall2 (λ kv kv', kv.1 = kv'.1 ∧ reordered kv.2 kv'.2 ∧ P kv.2 kv'.2) m m1 →
      m1 ≡ₚ m' → P (VMap m) (VMap m'))
  (Hslice : ∀ l l',
      Forall2 (λ v v', reordered v v' ∧ P v v') l l' → P (VSlice l) (VSlice l')) :
  ∀ v v', reordered v v' → P v v'.
Proof.
  fix IH 3. intros v v' [v0|m m1 m' HF Hp|l l' HF].
  - apply Hsame.
  - apply (Hmap m m1 m'); [|exact Hp]. clear Hp. revert m m1 HF.
    fix IHF 3. intros m m1 [|kv kv' m0 m2 [Hk Hr] HF]; constructor.
    + split; [exact Hk|]. split; [exact Hr | apply IH; exact Hr].
    + apply IHF. exact HF.
  - apply Hslice. revert l l' HF.
    fix IHF 3. intros l l' [|v1 v2 l0 l2 Hr HF]; constructor.
    + split; [exact Hr | apply IH; exact Hr].
    + apply IHF. exact HF.
Qed.

Lemma index_elem m k v : NoDup m.*1 → (index m k = Some v ↔ (k, v) ∈ m).
Proof.
  induction m as [|[k' v'] m IH]; intros Hnd; cbn [index].
  - split; [discriminate | intros H; inversion H].
  - cbn in Hnd. apply NoDup_cons in Hnd as [Hk Hnd]. rewrite elem_of_cons.
    destruct (decide (k' = k)) as [->|Hne].
    + split.
      * intros H. inversion H; subst. left. reflexivity.
      * intros [H|H]; [inversion H; reflexivity|].
        exfalso. apply Hk. apply list_elem_of_fmap. exists (k, v). split; [reflexivity | exact H].
    + rewrite (IH Hnd). split; [auto | intros [H|H]; [inversion H; congruence | exact H]].
Qed.

Lemma index_perm m m' k : NoDup m.*1 → m ≡ₚ m' → index m' k = index m k.
Proof.
  intros Hnd Hperm. assert (NoDup m'.*1) as Hnd' by (rewrite <- Hperm; exact Hnd).
  destruct (index m k) as [v|] eqn:Hm.
  - apply (index_elem m' k v Hnd'). rewrite <- Hperm. apply (index_elem m k v Hnd). exact Hm.
  - destruct (index m' k) as [v|] eqn:Hm'; [|reflexivity].
    apply (index_elem m' k v Hnd') in Hm'. rewrite <- Hperm in Hm'.
    apply (index_elem m k v Hnd) in Hm'. congruence.
Qed.

Lemma index_paired (R : value → value → Prop) m m1 k :
  Forall2 (λ kv kv' : string * value, kv.1 = kv'.1 ∧ R kv.2 kv'.2) m m1 →
  match index m k, index m1 k with
  | Some v, Some v' => R v v'
  | None, None => True
  | _, _ => False
  end.
Proof.
  induction 1 as [|[k1 v1] [k2 v2] m m1 [Hk Hr] _ IH]; cbn [index]; [exact I|].
  cbn in Hk, Hr. subst k2. destruct (decide (k1 = k)); [exact Hr | exact IH].
Qed.

Lemma paired_keys (R : value → value → Prop) m m1 :
  Forall2 (λ kv kv' : string * value, kv.1 = kv'.1 ∧ R kv.2 kv'.2) m m1 → m1.*1 = m.*1.
Proof.
  induction 1 as [|kv kv' m m1 [Hk _] _ IH]; [reflexivity|].
  cbn [fmap list_fmap]. f_equal; [symmetry; exact Hk | exact IH].
Qed.

Lemma reordered_string v s : reordered v (VString s) → v = VString s.
Proof. intros H. inversion H; reflexivity. Qed.

Lemma reordered_string_l s v' : reordered (VString s) v' → v' = VString s.
Proof. intros H. inversion H; reflexivity. Qed.

(** The name an array element is filed under does not depend on the
    order of its entries. *)
Lemma reordered_name item item' :
  reordered item item' → uniqueKeys item = true →
  (∀ i, pathSegment i item' = pathSegment i item) ∧
  nameIsString item' = nameIsString item.
Proof.
  intros Hr Hu. inversion Hr as [v|m m1 m' HF Hp|l l' HF]; subst;
    [split; reflexivity | | split; reflexivity].
  cbn [uniqueKeys] in Hu. apply andb_true_iff in Hu as [Hnd _].
  apply bool_decide_eq_true_1 in Hnd.
  assert (NoDup m1.*1) as Hnd1 by (rewrite (paired_keys _ _ _ HF); exact Hnd).
  pose proof (index_paired reordered m m1 "name" HF) as Hpair.
  unfold pathSegment, nameIsString. rewrite (index_perm m1 m' "name" Hnd1 Hp).
  destruct (index m "name") as [v|], (index m1 "name") as [v'|]; try contradiction;
    [|split; reflexivity].
  destruct v; try (apply reordered_string_l in Hpair; subst; split; reflexivity);
    destruct v'; try (apply reordered_string in Hpair; discriminate);
    split; reflexivity.
Qed.

Lemma eachIndexed_bind {A B} (f : A → list B) (l : list A) i :
  eachIndexed (λ _ a, f a) i l = l ≫= f.
Proof.
  revert i. induction l as [|a l IH]; intros i; [reflexivity|].
  cbn [eachIndexed]. rewrite IH. reflexivity.
Qed.

Lemma forallb_perm {A} (f : A → bool) (l l' : list A) :
  l ≡ₚ l' → forallb f l = forallb f l'.
Proof.
  induction 1 as [|a l l' _ IH|a b l|l l' l'' _ IH1 _ IH2]; cbn [forallb].
  - reflexivity.
  - rewrite IH. reflexivity.
  - destruct (f a), (f b); reflexivity.
  - rewrite IH1. exact IH2.
Qed.

Section WithGo.
Variable FormatFloat : float → string.

Lemma flattened_reordered v v' :
  reordered v v' → uniqueKeys v = true →
  (∀ root, flattened FormatFloat root v ≡ₚ flattened FormatFloat root v') ∧
  wellNamed v' = wellNamed v.
Proof.
  intros Hr. induction Hr as [v|m m1 m' HF Hp|l l' HF] using reordered_ind; intros Hu.
  - split; reflexivity.
  - cbn [uniqueKeys] in Hu. apply andb_true_iff in Hu as [_ Hu].
    assert (Hm1 : (∀ root, flattened FormatFloat root (VMap m)
                           ≡ₚ flattened FormatFloat root (VMap m1)) ∧
                  wellNamed (VMap m1) = wellNamed (VMap m)).
    { clear Hp. cbn [flattened wellNamed].
      induction HF as [|[k v] [k' v'] m m1 (Hk & Hr & IHv) HF IH].
      - split; reflexivity.
      - cbn [forallb] in Hu. apply andb_true_iff in Hu as [Huv Hu].
        cbn in Hk, Hr, IHv, Huv. subst k'.
        destruct (IHv Huv) as [Hfl Hwn]. destruct (IH Hu) as [Hfls Hwns].
        split.
        + intros root. cbn [eachIndexed fst snd].
          rewrite !eachIndexed_bind. rewrite (Hfl _).
          specialize (Hfls root). rewrite !eachIndexed_bind in Hfls.
          rewrite Hfls. reflexivity.
        + cbn [forallb snd]. rewrite Hwn, Hwns. reflexivity. }
    destruct Hm1 as [Hfl Hwn]. split.
    + intros root. rewrite (Hfl root). cbn [flattened].
      rewrite !eachIndexed_bind. rewrite Hp. reflexivity.
    + rewrite <- Hwn. cbn [wellNamed]. symmetry. apply forallb_perm. exact Hp.
  - cbn [uniqueKeys] in Hu. cbn [flattened wellNamed].
    assert ((∀ i root,
              eachIndexed (λ i item, flattened FormatFloat
                                       (root +:+ "/" +:+ pathSegment i item) item) i l
              ≡ₚ eachIndexed (λ i item, flattened FormatFloat
                                          (root +:+ "/" +:+ pathSegment i item) item) i l')
           ∧ forallb (λ item, nameIsString item && wellNamed item) l'
             = forallb (λ item, nameIsString item && wellNamed item) l) as H.
    { induction HF as [|v v' l l' (Hr & IHv) HF IH].
      - split; reflexivity.
      - cbn [forallb] in Hu. apply andb_true_iff in Hu as [Huv Hu].
        destruct (IHv Huv) as [Hfl Hwn]. destruct (IH Hu) as [Hfls Hwns].
        destruct (reordered_name v v' Hr Huv) as [Hseg Hname].
        split.
        + intros i root. cbn [eachIndexed]. rewrite Hseg, (Hfl _), (Hfls _ _). reflexivity.
        + cbn [forallb]. rewrite Hname, Hwn, Hwns. reflexivity. }
    destruct H as [Hfl Hwn]. split; [intros root; apply Hfl | exact Hwn].
Qed.

End WithGo.

(** X17: when the objects of a value have distinct keys, its array
    elements carry string names and no two of its leaves share a path,
    the map the walk returns does not depend on the order in which the
    objects are ranged over: the walk of the value met in any other
    order returns the same map. *)
Theorem treeWalk_any_order (FormatFloat : float → string) (root : string)
  (val val' : value) (vars : gmap string string) (w : world) :
  reordered val val' → uniqueKeys val = true → wellNamed val = true →
  NoDup (flattened FormatFloat root val).*1 →
  ∃ vars' w1 w2,
    treeWalk FormatFloat root val vars w = Returns ((vars', None), w1) ∧
    treeWalk FormatFloat root val' vars w = Returns ((vars', None), w2).
Proof.
  intros Hr Hu Hwn Hnd.
  destruct (flattened_reordered FormatFloat val val' Hr Hu) as [Hfl Hwn'].
  rewrite Hwn in Hwn'.
  rewrite (treeWalk_flattened FormatFloat val Hwn),
          (treeWalk_flattened FormatFloat val' Hwn').
  rewrite <- (assign_all_perm _ _ vars (Hfl root) Hnd).
  eexists _, _, _. split; reflexivity.
Qed.

Lemma treeWalk_any_order_witness :
  ∃ vars' w1 w2,
    treeWalk smallFloat "/r" nested ∅ emptyWorld = Returns ((vars', None), w1) ∧
    treeWalk smallFloat "/r" nestedSorted ∅ emptyWorld = Returns ((vars', None), w2).
Proof.
  apply (treeWalk_any_order smallFloat "/r" nested nestedSorted ∅ emptyWorld).
  - apply (reordered_map _ [("b", VMap [("x", VFloat64 1); ("y", VFloat64 2)]);
                            ("a", VBool true)]).
    + constructor; [split; [reflexivity|]|].
      * apply (reordered_map _ [("y", VFloat64 2); ("x", VFloat64 1)]).
        -- constructor; [split; [reflexivity | apply reordered_same]|].
           constructor; [split; [reflexivity | apply reordered_same]|]. constructor.
        -- apply perm_swap.
      * constructor; [split; [reflexivity | apply reordered_same] | constructor].
    + apply perm_swap.
  - vm_compute. reflexivity.
  - reflexivity.
  - apply (bool_decide_unpack _). vm_compute. exact I.
Defined.

Lemma string_app_length (s t : string) :
  String.length (s +:+ t) = String.length s + String.length t.
Proof.
  induction s as [|ch s IH]; [reflexivity|].
  change (String ch s +:+ t) with (String ch (s +:+ t)). cbn [String.length].
  rewrite IH. reflexivity.
Qed.

(** X19: where two leaves share a path the order of the range shows.
    An object with the key [k/j] beside the key [k] of an object that
    holds [j] has distinct keys, yet both leaves are filed under
    [root/k/j]: ranged over in one order the walk leaves the one value
    there, in the other order the other. *)
Theorem treeWalk_order_shows_on_shared_path (FormatFloat : float → string)
  (root k j s1 s2 : string) (vars : gmap string string) (w : world) :
  s1 ≠ s2 →
  reordered (VMap [(k +:+ "/" +:+ j, VString s1); (k, VMap [(j, VString s2)])])
            (VMap [(k, VMap [(j, VString s2)]); (k +:+ "/" +:+ j, VString s1)]) ∧
  uniqueKeys (VMap [(k +:+ "/" +:+ j, VString s1); (k, VMap [(j, VString s2)])]) = true ∧
  ∃ vars1 vars2 w1 w2,
    treeWalk FormatFloat root
      (VMap [(k +:+ "/" +:+ j, VString s1); (k, VMap [(j, VString s2)])]) vars w
    = Returns ((vars1, None), w1) ∧
    treeWalk FormatFloat root
      (VMap [(k, VMap [(j, VString s2)]); (k +:+ "/" +:+ j, VString s1)]) vars w
    = Returns ((vars2, None), w2) ∧
    vars1 !! (root +:+ "/" +:+ k +:+ "/" +:+ j) = Some s2 ∧
    vars2 !! (root +:+ "/" +:+ k +:+ "/" +:+ j) = Some s1 ∧
    vars1 ≠ vars2.
Proof.
  intros Hne.
  assert (Hpath : (root +:+ "/" +:+ k) +:+ "/" +:+ j = root +:+ "/" +:+ k +:+ "/" +:+ j).
  { rewrite !string_app_assoc. reflexivity. }
  split; [|split].
  - apply (reordered_map _ [(k +:+ "/" +:+ j, VString s1); (k, VMap [(j, VString s2)])]).
    + constructor; [split; [reflexivity | apply reordered_same]|].
      constructor; [split; [reflexivity | apply reordered_same]|]. constructor.
    + apply perm_swap.
  - cbn [uniqueKeys forallb fst snd fmap list_fmap]. rewrite !andb_true_r.
    apply bool_decide_eq_true_2. apply NoDup_cons. split; [|apply NoDup_singleton].
    intros Hin. apply list_elem_of_singleton in Hin.
    apply (f_equal String.length) in Hin. rewrite !string_app_length in Hin.
    cbn [String.length] in Hin. lia.
  - rewrite !treeWalk_flattened by reflexivity.
    cbn [flattened eachIndexed fst snd app]. rewrite Hpath.
    eexists _, _, _, _. split; [reflexivity|]. split; [reflexivity|].
    cbn [assign_all fold_left fst snd].
    assert (H1 : ∀ a b (m : gmap string string) p, <[p := a]> (<[p := b]> m) !! p = Some a)
      by (intros; apply lookup_insert_eq).
    split; [apply H1|]. split; [apply H1|].
    intros Heq. apply (f_equal (λ m : gmap string string,
                                  m !! (root +:+ "/" +:+ k +:+ "/" +:+ j))) in Heq.
    cbn beta in Heq. rewrite !H1 in Heq. congruence.
Qed.

Lemma treeWalk_order_shows_on_shared_path_witness :
  reordered (VMap [("a" +:+ "/" +:+ "b", VString "1"); ("a", VMap [("b", VString "2")])])
            (VMap [("a", VMap [("b", VString "2")]); ("a" +:+ "/" +:+ "b", VString "1")]) ∧
  uniqueKeys (VMap [("a" +:+ "/" +:+ "b", VString "1"); ("a", VMap [("b", VString "2")])])
  = true ∧
  ∃ vars1 vars2 w1 w2,
    treeWalk smallFloat "/r"
      (VMap [("a" +:+ "/" +:+ "b", VString "1"); ("a", VMap [("b", VString "2")])])
      ∅ emptyWorld
    = Returns ((vars1, None), w1) ∧
    treeWalk smallFloat "/r"
      (VMap [("a", VMap [("b", VString "2")]); ("a" +:+ "/" +:+ "b", VString "1")])
      ∅ emptyWorld
    = Returns ((vars2, None), w2) ∧
    vars1 !! ("/r" +:+ "/" +:+ "a" +:+ "/" +:+ "b") = Some "2" ∧
    vars2 !! ("/r" +:+ "/" +:+ "a" +:+ "/" +:+ "b") = Some "1" ∧
    vars1 ≠ vars2.
Proof.
  apply (treeWalk_order_shows_on_shared_path smallFloat "/r" "a" "b" "1" "2" ∅ emptyWorld).
  discriminate.
Defined.

End RancherSpec.

Module ZookeeperSpec.
Import Zookeeper.

Lemma znode_ind (P : znode → Prop)
  (HNode : ∀ data kids, Forall (λ kv, P kv.2) kids → P (ZNode data kids)) :
  ∀ n, P n.
Proof.
  fix IH 1. intros [data kids]. apply HNode.
  induction kids as [|[k child] kids IHkids]; constructor; [apply IH | apply IHkids].
Qed.

(** *** Stripping the wildcards *)

(** [Replace s "/*" ""] goes through [s] dropping every [/*]. *)
Lemma strip_wildcard s : Replace ("/*" +:+ s) "/*" "" = Replace s "/*" "".
Proof. reflexivity. Qed.

Lemma strip_other ch s :
  (ch ≠ "/"%char ∨ ∀ s', s ≠ String "*" s') →
  Replace (String ch s) "/*" "" = String ch (Replace s "/*" "").
Proof.
  intros H. unfold Replace. cbn [replace_from HasPrefix].
  destruct (Ascii.eqb_spec "/" ch) as [<-|Hne]; [|reflexivity].
  destruct s as [|ch' s']; [reflexivity|].
  cbn [HasPrefix]. destruct (Ascii.eqb_spec "*" ch') as [<-|Hne']; [|reflexivity].
  destruct H as [H|H]; [congruence | exfalso; apply (H s'); reflexivity].
Qed.

Lemma strip_length s : (String.length (Replace s "/*" "") ≤ String.length s)%nat.
Proof.
  remember (String.length s) as n eqn:Hn. revert s Hn.
  induction n as [n IH] using lt_wf_ind. intros s ->.
  destruct s as [|ch s]; [reflexivity|].
  destruct (Ascii.eqb_spec "/" ch) as [<-|Hne].
  - destruct s as [|ch' s'].
    + reflexivity.
    + destruct (Ascii.eqb_spec "*" ch') as [<-|Hne'].
      * change (String "/" (String "*" s')) with ("/*" +:+ s').
        rewrite strip_wildcard.
        specialize (IH (String.length s') ltac:(cbn; lia) s' eq_refl).
        change (String.length ("/*" +:+ s')) with (S (S (String.length s'))). lia.
      * rewrite strip_other by (right; congruence). cbn [String.length].
        specialize (IH (S (String.length s')) ltac:(cbn; lia) (String ch' s') eq_refl).
        cbn [String.length] in *. lia.
  - rewrite strip_other by (left; congruence). cbn [String.length].
    specialize (IH (String.length s) ltac:(cbn; lia) s eq_refl). lia.
Qed.

Lemma append_cons ch s t : String ch s +:+ t = String ch (s +:+ t).
Proof. reflexivity. Qed.

(** A key that holds no wildcard is left as it is, and loses the
    wildcard put at its end. *)
Lemma strip_trailing p :
  Replace p "/*" "" = p → Replace (p +:+ "/*") "/*" "" = p.
Proof.
  induction p as [|ch p IH]; intros Hp; [reflexivity|].
  destruct (Ascii.eqb_spec "/" ch) as [<-|Hne].
  - destruct p as [|ch' p'].
    + reflexivity.
    + destruct (Ascii.eqb_spec "*" ch') as [<-|Hne'].
      * exfalso. change (String "/" (String "*" p')) with ("/*" +:+ p') in Hp.
        rewrite strip_wildcard in Hp. pose proof (strip_length p') as Hlen.
        rewrite Hp in Hlen.
        change (String.length ("/*" +:+ p')) with (S (S (String.length p'))) in Hlen. lia.
      * rewrite strip_other in Hp by (right; congruence).
        injection Hp as Hp. rewrite !append_cons.
        rewrite strip_other by (right; congruence).
        f_equal. rewrite <- append_cons. apply IH. assumption.
  - rewrite strip_other in Hp by (left; congruence). injection Hp as Hp.
    rewrite append_cons, strip_other by (left; congruence).
    f_equal. apply IH. assumption.
Qed.

(** *** The walk *)

Lemma statOf_zero kids : (NumChildren (statOf kids) =? 0)%Z = true ↔ kids = [].
Proof.
  unfold statOf. cbn. rewrite Z.eqb_eq. destruct kids; cbn; [tauto|].
  split; [lia | discriminate].
Qed.

(** The loop over the children of a node that the ensemble shows. *)
Lemma rangeChildren_leaves c fuel path (kids : list (string * znode)) :
  Forall (λ kv, ∀ fuel path vars,
            shows (client c) path kv.2 → depth kv.2 ≤ fuel →
            nodeWalk fuel path c vars = Returns (assign_all (leaves path kv.2) vars, None))
         kids →
  foldr (λ kv rest, shows (client c) (path +:+ "/" +:+ kv.1) kv.2 ∧ rest) True kids →
  foldr (λ kv d, Nat.max (depth kv.2) d) 0 kids ≤ fuel →
  ∀ vars,
    rangeChildren (λ s vars, nodeWalk fuel s c vars) c path kids.*1 vars
    = Returns (assign_all (flat_map (λ kv, leaves (path +:+ "/" +:+ kv.1) kv.2) kids) vars,
               None).
Proof.
  induction 1 as [|[k child] kids Hchild _ IH]; intros Hshows Hdepth vars; [reflexivity|].
  cbn in Hshows, Hdepth. destruct Hshows as [Hs Hrest].
  cbn [fmap list_fmap fst rangeChildren flat_map snd].
  rewrite assign_all_app.
  specialize (Hchild fuel (path +:+ "/" +:+ k) vars Hs ltac:(cbn; lia)). cbn in Hchild.
  destruct child as [data grandkids]. cbn [shows] in Hs.
  destruct Hs as (HChildren & HGet & HExists & _). rewrite HExists.
  destruct (NumChildren (statOf grandkids) =? 0)%Z eqn:Hz.
  - apply statOf_zero in Hz. subst grandkids. rewrite HGet.
    apply IH; [assumption | lia].
  - rewrite Hchild. apply IH; [assumption | lia].
Qed.

Lemma nodeWalk_leaves c n :
  ∀ fuel path vars,
    shows (client c) path n → depth n ≤ fuel →
    nodeWalk fuel path c vars = Returns (assign_all (leaves path n) vars, None).
Proof.
  induction n as [data kids IH] using znode_ind. intros fuel path vars Hs Hd.
  destruct fuel as [|fuel]; [cbn in Hd; lia|].
  cbn [shows] in Hs. destruct Hs as (HChildren & HGet & HExists & Hkids).
  cbn [nodeWalk]. rewrite HChildren.
  destruct (NumChildren (statOf kids) =? 0)%Z eqn:Hz.
  - apply statOf_zero in Hz. subst kids. rewrite HGet. reflexivity.
  - assert (kids ≠ []) as Hne by (intros ->; discriminate).
    rewrite rangeChildren_leaves; [| assumption | assumption | cbn in Hd; lia].
    destruct kids; [congruence | reflexivity].
Qed.

(** *** GetValues *)

Lemma GetValues_from_exists_error fuel c key rest vars e :
  (Exists (client c) (Replace key "/*" "")).2 = Some e →
  GetValues_from fuel c (key :: rest) vars = Returns (vars, Some e).
Proof.
  intros He. cbn [GetValues_from].
  destruct (Exists (client c) (Replace key "/*" "")) as [[b stat] err].
  cbn in He. subst err. reflexivity.
Qed.

Lemma GetValues_from_missing nodes fuel key rest vars :
  0 < fuel → nodes !! walkRoot key = None →
  GetValues_from fuel {| client := ensemble nodes |} (key :: rest) vars
  = Returns (vars, Some ErrNoNode).
Proof.
  intros Hfuel Hnone. destruct fuel as [|fuel]; [lia|].
  cbn [GetValues_from client ensemble Exists].
  assert (∀ p, (match nodes !! p with
                | Some (_, ks) => (true, {| NumChildren := Z.of_nat (length ks) |}, None)
                | None => (false, {| NumChildren := 0 |}, None : option error)
                end).2 = None) as Hex by (intros p; destruct (nodes !! p) as [[]|]; reflexivity).
  specialize (Hex (Replace key "/*" "")).
  destruct (match nodes !! Replace key "/*" "" with Some _ => _ | None => _ end)
    as [[b stat] err]. cbn in Hex. subst err.
  fold (walkRoot key). cbn [nodeWalk client ensemble Children]. rewrite Hnone. reflexivity.
Qed.

Lemma GetValues_from_leaves c fuel keys trees :
  Forall2 (λ key n,
             (Exists (client c) (Replace key "/*" "")).2 = None ∧
             shows (client c) (walkRoot key) n ∧ depth n ≤ fuel) keys trees →
  ∀ vars,
    GetValues_from fuel c keys vars
    = Returns (assign_all
                 (concat (zip_with (λ key n, leaves (walkRoot key) n) keys trees)) vars,
               None).
Proof.
  induction 1 as [|key n keys trees (Hex & Hshows & Hdepth) _ IH]; intros vars;
    [reflexivity|].
  cbn [GetValues_from zip_with concat].
  destruct (Exists (client c) (Replace key "/*" "")) as [[b stat] err].
  cbn in Hex. subst err. fold (walkRoot key).
  rewrite (nodeWalk_leaves c n) by assumption.
  rewrite IH, assign_all_app. reflexivity.
Qed.

Lemma appStore_shows_appTree : shows (ensemble appStore) "/app" appTree.
Proof. cbn. repeat split; reflexivity. Qed.

(** C5: [GetValues] takes the wildcard off the end of each prefix, fails
    with the error of the existence check or, on a node the ensemble
    does not hold, with [ErrNoNode]; over prefixes whose nodes the
    ensemble shows as trees it returns, given fuel for the deepest tree,
    the leaves of every tree merged in the order of the prefixes; and on
    the store whose only leaf below [/app] is [/app/db/host = "x"],
    [GetValues(["/app/*"])] is exactly that one entry. *)
Theorem GetValues_walks_prefixes (c : Client) :
  (∀ p, Replace p "/*" "" = p → Replace (p +:+ "/*") "/*" "" = p) ∧
  (∀ fuel key rest vars e,
     (Exists (client c) (Replace key "/*" "")).2 = Some e →
     GetValues_from fuel c (key :: rest) vars = Returns (vars, Some e)) ∧
  (∀ nodes fuel key rest vars,
     0 < fuel → nodes !! walkRoot key = None →
     GetValues_from fuel {| client := ensemble nodes |} (key :: rest) vars
     = Returns (vars, Some ErrNoNode)) ∧
  (∀ fuel keys trees,
     Forall2 (λ key n,
                (Exists (client c) (Replace key "/*" "")).2 = None ∧
                shows (client c) (walkRoot key) n ∧ depth n ≤ fuel) keys trees →
     GetValues fuel c keys
     = Returns (assign_all
                  (concat (zip_with (λ key n, leaves (walkRoot key) n) keys trees)) ∅,
                None)) ∧
  (∀ fuel, 3 ≤ fuel →
     GetValues fuel {| client := ensemble appStore |} ["/app/*"]
     = Returns ({["/app/db/host" := "x"]}, None)).
Proof.
  split; [exact strip_trailing|].
  split; [intros; apply GetValues_from_exists_error; assumption|].
  split; [intros; apply GetValues_from_missing; assumption|].
  split; [intros; apply GetValues_from_leaves; assumption|].
  intros fuel Hfuel. unfold GetValues.
  rewrite (GetValues_from_leaves _ fuel ["/app/*"] [appTree]); [reflexivity|].
  constructor; [|constructor].
  split; [reflexivity|]. split; [exact appStore_shows_appTree | exact Hfuel].
Qed.

(** On the store of the example: the wildcard goes, a prefix that is not
    there fails with [ErrNoNode], [/app/*] gives the one leaf; and on a
    closed connection the error of the existence check comes back. *)
Lemma GetValues_walks_prefixes_witness :
  Replace "/app/*" "/*" "" = "/app" ∧
  GetValues_from 3 {| client := closedConn |} ["/app/*"] ∅
  = Returns (∅, Some ErrConnectionClosed) ∧
  GetValues_from 3 {| client := ensemble appStore |} ["/nope/*"; "/app/*"] ∅
  = Returns (∅, Some ErrNoNode) ∧
  GetValues 3 {| client := ensemble appStore |} ["/app/*"]
  = Returns (assign_all (leaves "/app" appTree) ∅, None).
Proof.
  destruct (GetValues_walks_prefixes {| client := ensemble appStore |})
    as (Hstrip & _ & Hmissing & Hwalk & _).
  split; [|split; [|split]].
  - apply (Hstrip "/app"). reflexivity.
  - apply (proj1 (proj2 (GetValues_walks_prefixes {| client := closedConn |}))).
    reflexivity.
  - apply (Hmissing appStore 3 "/nope/*" ["/app/*"] ∅); [lia | reflexivity].
  - apply (Hwalk 3 ["/app/*"] [appTree]).
    constructor; [|constructor]. split; [reflexivity|].
    split; [cbn; repeat split; reflexivity | cbn; lia].
Defined.

(** *** WatchPrefix *)






(** *** What a failed walk leaves in the map *)





(** ** What a walk touches *)

Lemma rangeChildren_frame walk c prefix l :
  (∀ s vars vars' e,
     walk s vars = Returns (vars', e) →
     ∀ p, HasPrefix p s = false → vars' !! p = vars !! p) →
  ∀ vars vars' e,
    rangeChildren walk c prefix l vars = Returns (vars', e) →
    ∀ p, HasPrefix p prefix = false → vars' !! p = vars !! p.
Proof.
  intros Hwalk. induction l as [|key l IH]; intros vars vars' e H p Hp; cbn in H.
  - inversion H. reflexivity.
  - assert (Hs : HasPrefix p (prefix +:+ "/" +:+ key) = false).
    { destruct (HasPrefix p (prefix +:+ "/" +:+ key)) eqn:Hs; [|reflexivity].
      apply HasPrefix_app_l in Hs. congruence. }
    destruct (Exists (client c) (prefix +:+ "/" +:+ key)) as [[b stat] [err|]].
    + inversion H. reflexivity.
    + destruct (NumChildren stat =? 0)%Z.
      * destruct (Get (client c) (prefix +:+ "/" +:+ key)) as [[data stat'] [err|]].
        -- inversion H. reflexivity.
        -- rewrite (IH _ _ _ H p Hp). apply lookup_insert_ne.
           intros Heq. subst p. rewrite HasPrefix_refl in Hs. discriminate.
      * destruct (walk (prefix +:+ "/" +:+ key) vars) as [[vars1 e1]| |] eqn:Hw;
          try discriminate.
        rewrite (IH _ _ _ H p Hp). apply (Hwalk _ _ _ _ Hw p Hs).
Qed.

Lemma nodeWalk_frame c fuel : ∀ prefix vars vars' e,
  nodeWalk fuel prefix c vars = Returns (vars', e) →
  ∀ p, HasPrefix p prefix = false → vars' !! p = vars !! p.
Proof.
  induction fuel as [|fuel IH]; intros prefix vars vars' e H p Hp; [discriminate|].
  cbn [nodeWalk] in H.
  destruct (Children (client c) prefix) as [[l stat] [err|]].
  - inversion H. reflexivity.
  - destruct (NumChildren stat =? 0)%Z.
    + destruct (Get (client c) prefix) as [[data stat'] [err|]]; inversion H.
      * reflexivity.
      * apply lookup_insert_ne. intros Heq. subst p.
        rewrite HasPrefix_refl in Hp. discriminate.
    + eapply rangeChildren_frame; [|exact H|exact Hp].
      intros s v v' e' Hw. apply IH with (e := e'). exact Hw.
Qed.

Lemma GetValues_from_frame c fuel keys : ∀ vars vars' e,
  GetValues_from fuel c keys vars = Returns (vars', e) →
  ∀ p, vars' !! p ≠ vars !! p →
       ∃ key, key ∈ keys ∧ HasPrefix p (walkRoot key) = true.
Proof.
  induction keys as [|key keys IH]; intros vars vars' e H p Hne; cbn [GetValues_from] in H.
  - inversion H; subst. congruence.
  - destruct (Exists (client c) (Replace key "/*" "")) as [[b stat] [err|]].
    + inversion H; subst. congruence.
    + fold (walkRoot key) in H.
      destruct (nodeWalk fuel (walkRoot key) c vars) as [[vars1 [e1|]]| |] eqn:Hw;
        try discriminate.
      * inversion H; subst. exists key. split; [apply list_elem_of_here|].
        destruct (HasPrefix p (walkRoot key)) eqn:Hp; [reflexivity|].
        rewrite (nodeWalk_frame _ _ _ _ _ _ Hw p Hp) in Hne. congruence.
      * destruct (decide (vars' !! p = vars1 !! p)) as [Hsame|Hchanged].
        -- exists key. split; [apply list_elem_of_here|].
           destruct (HasPrefix p (walkRoot key)) eqn:Hp; [reflexivity|].
           rewrite Hsame, (nodeWalk_frame _ _ _ _ _ _ Hw p Hp) in Hne. congruence.
        -- destruct (IH _ _ _ H p Hchanged) as (k & Hk & Hpre). exists k.
           split; [apply list_elem_of_further; exact Hk | exact Hpre].
Qed.

(** X6: every key of the map [GetValues] returns, with or without an
    error, lies at or below the node walked for one of the prefixes
    asked for (the prefix without its wildcards, the root as the empty
    path). *)
Theorem GetValues_under_prefixes (fuel : nat) (c : Client) (keys : list string)
  (vars' : gmap string string) (e : option error) :
  GetValues fuel c keys = Returns (vars', e) →
  ∀ p, is_Some (vars' !! p) →
       ∃ key, key ∈ keys ∧ HasPrefix p (walkRoot key) = true.
Proof.
  intros H p [s Hs]. apply (GetValues_from_frame _ _ _ _ _ _ H).
  rewrite Hs, lookup_empty. discriminate.
Qed.

Lemma GetValues_under_prefixes_witness :
  ∃ key, key ∈ ["/app/*"] ∧ HasPrefix "/app/db/host" (walkRoot key) = true.
Proof.
  apply (GetValues_under_prefixes 3 {| client := ensemble appStore |} ["/app/*"]
           (<["/app/db/host" := "x"]> ∅) None).
  - vm_compute. reflexivity.
  - vm_compute. eauto.
Defined.

(** ** Which errors a walk reports *)

Lemma rangeChildren_error walk c prefix l : ∀ vars vars' e,
  rangeChildren walk c prefix l vars = Returns (vars', Some e) →
  ∃ key, key ∈ l ∧
    ((Exists (client c) (prefix +:+ "/" +:+ key)).2 = Some e ∨
     (Get (client c) (prefix +:+ "/" +:+ key)).2 = Some e).
Proof.
  induction l as [|key l IH]; intros vars vars' e H; cbn in H; [discriminate|].
  destruct (Exists (client c) (prefix +:+ "/" +:+ key)) as [[b stat] [err|]] eqn:HE.
  - inversion H; subst. exists key. split; [apply list_elem_of_here|].
    left. rewrite HE. reflexivity.
  - destruct (NumChildren stat =? 0)%Z.
    + destruct (Get (client c) (prefix +:+ "/" +:+ key)) as [[data stat'] [err|]] eqn:HG.
      * inversion H; subst. exists key. split; [apply list_elem_of_here|].
        right. rewrite HG. reflexivity.
      * destruct (IH _ _ _ H) as (k & Hk & Hor). exists k.
        split; [apply list_elem_of_further; exact Hk | exact Hor].
    + destruct (walk (prefix +:+ "/" +:+ key) vars) as [[vars1 e1]| |]; try discriminate.
      destruct (IH _ _ _ H) as (k & Hk & Hor). exists k.
      split; [apply list_elem_of_further; exact Hk | exact Hor].
Qed.

(** X7: an error [nodeWalk] returns is one met at the node it was
    called on or at one of the children that node lists: the error of
    [Children] or [Get] on the node, or of [Exists] or [Get] on a child.
    An error met deeper is dropped: when the walk of a child that has
    children fails, the loop goes on with the map that walk left. *)
Theorem nodeWalk_errors_are_shallow (fuel : nat) (c : Client) (prefix : string)
  (vars : gmap string string) :
  (∀ vars' e,
     nodeWalk fuel prefix c vars = Returns (vars', Some e) →
     (Children (client c) prefix).2 = Some e ∨
     (Get (client c) prefix).2 = Some e ∨
     ∃ key, key ∈ (Children (client c) prefix).1.1 ∧
       ((Exists (client c) (prefix +:+ "/" +:+ key)).2 = Some e ∨
        (Get (client c) (prefix +:+ "/" +:+ key)).2 = Some e)) ∧
  (∀ key rest vars1 e,
     (Exists (client c) (prefix +:+ "/" +:+ key)).2 = None →
     NumChildren (Exists (client c) (prefix +:+ "/" +:+ key)).1.2 ≠ 0%Z →
     nodeWalk fuel (prefix +:+ "/" +:+ key) c vars = Returns (vars1, Some e) →
     rangeChildren (λ s vars, nodeWalk fuel s c vars) c prefix (key :: rest) vars
     = rangeChildren (λ s vars, nodeWalk fuel s c vars) c prefix rest vars1).
Proof.
  split.
  - intros vars' e H. destruct fuel as [|fuel]; [discriminate|].
    cbn [nodeWalk] in H.
    destruct (Children (client c) prefix) as [[l stat] [err|]].
    + inversion H; subst. left. reflexivity.
    + destruct (NumChildren stat =? 0)%Z.
      * destruct (Get (client c) prefix) as [[data stat'] [err|]]; inversion H; subst.
        right. left. reflexivity.
      * right. right. cbn [fst snd]. eapply rangeChildren_error. exact H.
  - intros key rest vars1 e HE Hn Hw. cbn [rangeChildren].
    destruct (Exists (client c) (prefix +:+ "/" +:+ key)) as [[b stat] err].
    cbn in HE, Hn. subst err.
    destruct (Z.eqb_spec (NumChildren stat) 0); [contradiction|].
    rewrite Hw. reflexivity.
Qed.

(** On the store where [/app/db/gone] is missing: the walk of [/app/db]
    fails at its child, and the walk of [/app], one level up, returns
    the leaf it found and a nil error. *)
Lemma nodeWalk_errors_are_shallow_witness :
  ((Children (ensemble deepBrokenStore) "/app/db").2 = Some ErrNoNode ∨
   (Get (ensemble deepBrokenStore) "/app/db").2 = Some ErrNoNode ∨
   ∃ key, key ∈ (Children (ensemble deepBrokenStore) "/app/db").1.1 ∧
     ((Exists (ensemble deepBrokenStore) ("/app/db" +:+ "/" +:+ key)).2 = Some ErrNoNode ∨
      (Get (ensemble deepBrokenStore) ("/app/db" +:+ "/" +:+ key)).2 = Some ErrNoNode)) ∧
  nodeWalk 3 "/app" {| client := ensemble deepBrokenStore |} ∅
  = Returns (<["/app/db/host" := "x"]> ∅, None).
Proof.
  split.
  - apply (proj1 (nodeWalk_errors_are_shallow 2 {| client := ensemble deepBrokenStore |}
                    "/app/db" ∅) (<["/app/db/host" := "x"]> ∅) ErrNoNode).
    vm_compute. reflexivity.
  - change (nodeWalk 3 "/app" {| client := ensemble deepBrokenStore |} ∅)
      with (rangeChildren (λ s vars, nodeWalk 2 s {| client := ensemble deepBrokenStore |} vars)
              {| client := ensemble deepBrokenStore |} "/app" ["db"] ∅).
    rewrite (proj2 (nodeWalk_errors_are_shallow 2 {| client := ensemble deepBrokenStore |}
                      "/app" ∅) "db" [] (<["/app/db/host" := "x"]> ∅) ErrNoNode);
      [reflexivity | reflexivity | discriminate | vm_compute; reflexivity].
Defined.

(** ** The goroutines WatchPrefix starts *)

Section WithGo.
Variable Dir : string → string.

Lemma watchDirs_watched good fuel : ∀ dir watchMap started watchMap' started',
  (∃ k n, good k ∧ dir = Nat.iter (S n) Dir k) →
  watched Dir good watchMap started →
  watchDirs Dir fuel dir watchMap started = Returns (watchMap', started') →
  watched Dir good watchMap' started'.
Proof.
  induction fuel as [|fuel IH]; intros dir wm st wm' st' Hdir Hinv H; [discriminate|].
  cbn [watchDirs] in H. destruct (decide (dir = "/")) as [->|Hroot].
  - inversion H; subst. exact Hinv.
  - assert (Hnext : ∃ k n, good k ∧ Dir dir = Nat.iter (S n) Dir k).
    { destruct Hdir as (k & n & Hk & ->). exists k, (S n). split; [exact Hk | reflexivity]. }
    destruct (wm !! dir) as [x|] eqn:Hlook.
    + apply (IH _ _ _ _ _ Hnext Hinv H).
    + apply (IH _ _ _ _ _ Hnext) in H; [exact H|].
      destruct Hinv as (Hnd & Hnr & Hdom & Hgood).
      assert (dir ∉ st) as Hfresh.
      { intros Hin. apply Hdom in Hin. rewrite Hlook in Hin. destruct Hin; discriminate. }
      repeat split.
      * apply NoDup_app. repeat split; [exact Hnd | | apply NoDup_singleton].
        intros d Hd Hd'. apply list_elem_of_singleton in Hd'. subst d. contradiction.
      * rewrite elem_of_app, list_elem_of_singleton. intros [Hin|Heq]; [contradiction|].
        congruence.
      * rewrite elem_of_app, list_elem_of_singleton. intros [Hin| ->].
        -- rewrite lookup_insert_ne; [apply Hdom; exact Hin|].
           intros <-. contradiction.
        -- rewrite lookup_insert_eq. eauto.
      * rewrite elem_of_app, list_elem_of_singleton. intros Hsome.
        destruct (decide (dir = d)) as [->|Hne]; [right; reflexivity|].
        left. apply Hdom. rewrite lookup_insert_ne in Hsome by exact Hne. exact Hsome.
      * intros d. rewrite elem_of_app, list_elem_of_singleton. intros [Hin| ->].
        -- apply Hgood. exact Hin.
        -- exact Hdir.
Qed.

Lemma watchFolders_watched fuel keys entries : ∀ good watchMap started watchMap' started',
  (∀ k, k ∈ entries → matches keys k = true → good k) →
  watched Dir good watchMap started →
  watchFolders Dir fuel keys entries watchMap started = Returns (watchMap', started') →
  watched Dir good watchMap' started'.
Proof.
  induction entries as [|k entries IH]; intros good wm st wm' st' Hgood Hinv H;
    cbn [watchFolders] in H.
  - inversion H; subst. exact Hinv.
  - destruct (matches keys k) eqn:Hm.
    + destruct (watchDirs Dir fuel (Dir k) wm st) as [[wm1 st1]| |] eqn:Hd; try discriminate.
      apply (IH good _ _ _ _ (λ k' Hk', Hgood k' (list_elem_of_further _ _ _ Hk'))) in H;
        [exact H|].
      apply (watchDirs_watched good _ _ _ _ _ _) with (3 := Hd); [|exact Hinv].
      exists k, 0. split; [|reflexivity]. apply Hgood; [apply list_elem_of_here | exact Hm].
    + apply (IH good _ _ _ _ (λ k' Hk', Hgood k' (list_elem_of_further _ _ _ Hk'))) in H;
        [exact H | exact Hinv].
Qed.

Lemma watchFolders_no_match fuel keys entries : ∀ watchMap started,
  Forall (λ k, matches keys k = false) entries →
  watchFolders Dir fuel keys entries watchMap started = Returns (watchMap, started).
Proof.
  induction entries as [|k entries IH]; intros wm st Hno; [reflexivity|].
  apply Forall_cons in Hno as [Hk Hno]. cbn [watchFolders]. rewrite Hk. apply IH. exact Hno.
Qed.

Lemma watchKeys_no_match keys entries :
  Forall (λ k, matches keys k = false) entries → watchKeys keys entries = [].
Proof.
  induction 1 as [|k entries Hk _ IH]; [reflexivity|].
  unfold watchKeys in *. rewrite filter_cons, IH.
  destruct (decide (matches keys k = true)); [congruence | reflexivity].
Qed.

End WithGo.

(** X8: the directories [WatchPrefix] starts goroutines on are started
    once each, are never the root, are the keys of its watch map, and
    each lies above an entry that matches a key: it is what [filepath.Dir],
    taken once or more, gives from such an entry. *)
Theorem watchFolders_starts_once (Dir : string → string) (fuel : nat)
  (keys entries : list string) (watchMap : gmap string string) (started : list string) :
  watchFolders Dir fuel keys entries ∅ [] = Returns (watchMap, started) →
  NoDup started ∧ ("/" ∉ started) ∧
  (∀ d, d ∈ started ↔ is_Some (watchMap !! d)) ∧
  (∀ d, d ∈ started →
        ∃ k n, (k ∈ entries ∧ matches keys k = true) ∧ d = Nat.iter (S n) Dir k).
Proof.
  intros H.
  apply (watchFolders_watched Dir fuel keys entries
           (λ k, k ∈ entries ∧ matches keys k = true) ∅ []) in H; [exact H | auto |].
  repeat split.
  - apply NoDup_nil_2.
  - apply not_elem_of_nil.
  - intros Hin. inversion Hin.
  - rewrite lookup_empty. intros [x Hx]. discriminate.
  - intros d Hin. inversion Hin.
Qed.

Lemma watchFolders_starts_once_witness :
  NoDup ["/app/db"; "/app"] ∧ ("/" ∉ ["/app/db"; "/app"]).
Proof.
  destruct (watchFolders_starts_once cleanDir 3 ["/app"]
              ["/app/db/host"; "/app/db/port"]
              (<["/app" := ""]> (<["/app/db" := ""]> ∅)) ["/app/db"; "/app"])
    as (Hnd & Hroot & _).
  - vm_compute. reflexivity.
  - split; assumption.
Defined.

(** X9: [WatchPrefix] starts no goroutine when the snapshot fails, and
    none when no entry of the snapshot has one of the keys as a prefix
    (so with no keys at all): in the first case it returns the input
    cursor with the error of the snapshot whatever arrives, in the
    second the stop signal returns the input cursor and a nil error. *)
Theorem WatchPrefix_starts_nothing (Dir : string → string) (fuel : nat) (c : Client)
  (prefix : string) (keys : list string) (waitIndex : string)
  (entries : gmap string string) :
  (∀ e first,
     GetValues fuel c [prefix] = Returns (entries, Some e) →
     WatchPrefix Dir fuel c prefix keys waitIndex first
     = Returns ([], (waitIndex, Some e))) ∧
  (GetValues fuel c [prefix] = Returns (entries, None) →
   (∀ k, is_Some (entries !! k) → matches keys k = false) →
   WatchPrefix Dir fuel c prefix keys waitIndex stopChan
   = Returns ([], (waitIndex, None))).
Proof.
  split.
  - intros e first H. unfold WatchPrefix. rewrite H. reflexivity.
  - intros H Hno. unfold WatchPrefix. rewrite H.
    assert (Forall (λ k, matches keys k = false) (map_to_list entries).*1) as Hall.
    { apply Forall_forall. intros k Hk.
      apply list_elem_of_fmap in Hk as ([k' v] & -> & Hkv).
      apply elem_of_map_to_list in Hkv. apply Hno. cbn. eauto. }
    rewrite watchFolders_no_match, watchKeys_no_match by exact Hall. reflexivity.
Qed.

Lemma WatchPrefix_starts_nothing_witness :
  WatchPrefix cleanDir 3 {| client := ensemble appStore |} "/app" [] "7" stopChan
  = Returns ([], ("7", None)) ∧
  WatchPrefix cleanDir 3 {| client := ensemble appStore |} "/nope" ["/nope"] "7"
    (respChan {| waitIndex := ""; err := None |})
  = Returns ([], ("7", Some ErrNoNode)).
Proof.
  split.
  - apply (proj2 (WatchPrefix_starts_nothing cleanDir 3 {| client := ensemble appStore |}
                    "/app" [] "7" (<["/app/db/host" := "x"]> ∅))).
    + vm_compute. reflexivity.
    + intros k _. reflexivity.
  - apply (proj1 (WatchPrefix_starts_nothing cleanDir 3 {| client := ensemble appStore |}
                    "/nope" ["/nope"] "7" ∅)).
    vm_compute. reflexivity.
Defined.

(** ** What a watch relays *)

Lemma watch_loop_cancelled rs1 rs2 :
  watch_loop (rs1 ++ cancelRoutine :: rs2) = watch_loop rs1.
Proof.
  induction rs1 as [|[e|e|] rs1 IH]; cbn [app watch_loop].
  - reflexivity.
  - rewrite IH. reflexivity.
  - rewrite IH. reflexivity.
  - reflexivity.
Qed.

Lemma relayed_further a rs (r : watchResponse) :
  (∃ e, err r = Err e ∧
     (keyEventCh e ∈ rs ∧ Type_ e = EventNodeDataChanged ∨
      childEventCh e ∈ rs ∧ Type_ e = EventNodeChildrenChanged)) →
  ∃ e, err r = Err e ∧
    (keyEventCh e ∈ a :: rs ∧ Type_ e = EventNodeDataChanged ∨
     childEventCh e ∈ a :: rs ∧ Type_ e = EventNodeChildrenChanged).
Proof.
  intros (e & He & [[Hk Hty]|[Hk Hty]]); exists e; (split; [exact He|]).
  - left. split; [apply list_elem_of_further; exact Hk | exact Hty].
  - right. split; [apply list_elem_of_further; exact Hk | exact Hty].
Qed.

Lemma watch_loop_relays rs r :
  r ∈ watch_loop rs →
  ∃ e, err r = Err e ∧
    (keyEventCh e ∈ rs ∧ Type_ e = EventNodeDataChanged ∨
     childEventCh e ∈ rs ∧ Type_ e = EventNodeChildrenChanged).
Proof.
  induction rs as [|[e|e|] rs IH]; cbn [watch_loop]; intros Hin.
  - inversion Hin.
  - destruct (Type_ e) eqn:Ht;
      try (apply relayed_further, IH; exact Hin).
    apply elem_of_cons in Hin as [->|Hin]; [|apply relayed_further, IH; exact Hin].
    exists e. split; [reflexivity|]. left. split; [apply list_elem_of_here | exact Ht].
  - destruct (Type_ e) eqn:Ht;
      try (apply relayed_further, IH; exact Hin).
    apply elem_of_cons in Hin as [->|Hin]; [|apply relayed_further, IH; exact Hin].
    exists e. split; [reflexivity|]. right. split; [apply list_elem_of_here | exact Ht].
  - inversion Hin.
Qed.

Lemma watch_loop_length rs : length (watch_loop rs) ≤ length rs.
Proof.
  induction rs as [|[e|e|] rs IH]; cbn [watch_loop length]; try lia;
    destruct (Type_ e); cbn [length]; lia.
Qed.

(** X10: a [watch] goroutine whose two subscriptions succeed relays
    only data changes met on the key channel and child changes met on
    the children channel, each with the error the event carries, at most
    one response for each event received; an event of another type (a
    deletion, a session event) wakes nobody, and nothing is sent once
    the cancel channel has been read. *)
Theorem watch_relays_changes_only (c : Client) (key : string) :
  GetW (client c) key = None → ChildrenW (client c) key = None →
  (∀ rs r,
     r ∈ watch c key rs →
     ∃ e, err r = Err e ∧
       (keyEventCh e ∈ rs ∧ Type_ e = EventNodeDataChanged ∨
        childEventCh e ∈ rs ∧ Type_ e = EventNodeChildrenChanged)) ∧
  (∀ rs, length (watch c key rs) ≤ length rs) ∧
  (∀ rs1 rs2, watch c key (rs1 ++ cancelRoutine :: rs2) = watch c key rs1).
Proof.
  intros HG HC. unfold watch. rewrite HG, HC. cbn [app].
  split; [|split].
  - intros rs r. apply watch_loop_relays.
  - apply watch_loop_length.
  - apply watch_loop_cancelled.
Qed.

Lemma watch_relays_changes_only_witness :
  watch {| client := ensemble appStore |} "/app/db/host"
    ([keyEventCh {| Type_ := EventNodeDeleted; Err := None |}]
       ++ cancelRoutine
       :: [keyEventCh {| Type_ := EventNodeDataChanged; Err := None |}])
  = watch {| client := ensemble appStore |} "/app/db/host"
      [keyEventCh {| Type_ := EventNodeDeleted; Err := None |}].
Proof.
  apply (proj2 (proj2 (watch_relays_changes_only {| client := ensemble appStore |}
                         "/app/db/host" eq_refl eq_refl))).
Defined.

(** ** Keys without a wildcard *)

Lemma Replace_no_asterisk s :
  Rancher.hasChar "*" s = false → Replace s "/*" "" = s.
Proof.
  induction s as [|ch s IH]; intros H; [reflexivity|].
  cbn [Rancher.hasChar] in H. apply orb_false_iff in H as [Hch H].
  rewrite strip_other.
  - rewrite IH by exact H. reflexivity.
  - right. intros s' ->. cbn [Rancher.hasChar] in H. discriminate.
Qed.

(** X11: a prefix in which no asterisk occurs is walked as it is given,
    except the root, which is walked as the empty path; and stripping
    the wildcards never makes a key longer. *)
Theorem walkRoot_plain_key (key : string) :
  (Rancher.hasChar "*" key = false →
   walkRoot key = if decide (key = "/") then "" else key) ∧
  (String.length (Replace key "/*" "") ≤ String.length key).
Proof.
  split; [|apply strip_length].
  intros H. unfold walkRoot. rewrite Replace_no_asterisk by exact H. reflexivity.
Qed.

Lemma walkRoot_plain_key_witness :
  walkRoot "/app/db" = "/app/db" ∧ walkRoot "/" = "".
Proof.
  split.
  - apply (proj1 (walkRoot_plain_key "/app/db")). reflexivity.
  - apply (proj1 (walkRoot_plain_key "/")). reflexivity.
Defined.

End ZookeeperSpec.

Module SsmSpec.
Import Ssm.

(** *** Running a tree *)

(** Trees that are strongly bisimilar run alike. *)
Lemma run_eq_itree {W R} (h : handler W) fuel :
  ∀ (t t' : itree watchE (outcome R)) w, t ≅ t' → run fuel h t w = run fuel h t' w.
Proof.
  induction fuel as [|fuel IH]; intros t t' w Heq; [reflexivity|].
  apply eqit_inv in Heq. cbn [run]. unfold observe.
  destruct (_observe t) as [r|t1|T e k], (_observe t') as [r'|t1'|T' e' k'];
    cbn in Heq; try contradiction.
  - subst. reflexivity.
  - apply IH. assumption.
  - destruct Heq as (p & He & Hk). destruct p. cbn in He, Hk. subst e'.
    destruct (h T e w) as [a w']. rewrite (IH _ _ w' (Hk a)). reflexivity.
Qed.

#[global] Instance run_Proper {W R} fuel (h : handler W) :
  Proper (eq_itree eq ==> eq ==> eq) (@run W R fuel h).
Proof. intros t t' Heq w w' <-. apply run_eq_itree. assumption. Qed.

Lemma run_Ret {W R} fuel (h : handler W) (r : outcome R) w :
  run (S fuel) h (Ret r) w = ([], r).
Proof. reflexivity. Qed.

Lemma run_Tau {W R} fuel (h : handler W) (t : itree watchE (outcome R)) w :
  run (S fuel) h (Tau t) w = run fuel h t w.
Proof. reflexivity. Qed.

Lemma run_Vis {W R T} fuel (h : handler W) (e : watchE T)
  (k : T → itree watchE (outcome R)) w :
  run (S fuel) h (Vis e k) w
  = (called e :: (run fuel h (k (h T e w).1) (h T e w).2).1,
     (run fuel h (k (h T e w).1) (h T e w).2).2).
Proof.
  cbn [run observe _observe]. destruct (h T e w) as [a w'].
  cbn [fst snd]. destruct (run fuel h (k a) w'). reflexivity.
Qed.

Section WithGo.
Variable Unmarshal : list Byte.byte → Event → Event * option error.

(** One round of the loop, as a tree that starts with the fetch. *)
Lemma pollLoop_unfold keys shardIterator :
  ITree.iter (pollOnce Unmarshal keys) shardIterator
  ≅ Vis (GetRecords shardIterator) (λ r,
      match r with
      | inl e => Ret (return_deref shardIterator (Some e))
      | inr getRecordsOutput =>
          match scanRecords Unmarshal keys (Records getRecordsOutput) zeroEvent with
          | Some err => Ret (return_deref (NextShardIterator getRecordsOutput) err)
          | None =>
              Vis (Sleep (5 * Second)) (λ _,
                Tau (ITree.iter (pollOnce Unmarshal keys)
                       (NextShardIterator getRecordsOutput)))
          end
      end).
Proof.
  rewrite unfold_iter. unfold pollOnce at 1. unfold mbind, itree_bind.
  rewrite bind_bind, bind_trigger.
  apply eqit_Vis. intros [e|out].
  - rewrite bind_ret_l. reflexivity.
  - destruct (scanRecords Unmarshal keys (Records out) zeroEvent).
    + rewrite bind_ret_l. reflexivity.
    + rewrite bind_bind, bind_trigger. apply eqit_Vis. intros [].
      rewrite bind_ret_l. reflexivity.
Qed.

(** [WatchPrefix] as a tree that starts with [DescribeStream]. *)
Lemma WatchPrefix_unfold prefix keys waitIndex stop :
  WatchPrefix Unmarshal prefix keys waitIndex stop
  ≅ Vis (DescribeStream "test") (λ r,
      match r with
      | inl e => Ret (Returns (waitIndex, Some e))
      | inr [] => Ret (Panics "index out of range [0] with length 0")
      | inr (shard0 :: _) =>
          if decide (waitIndex = "") then
            Vis (GetShardIterator shard0 "test" ShardIteratorTypeLatest) (λ r,
              match r with
              | inl e => Ret (Returns (waitIndex, Some e))
              | inr shardIterator =>
                  ITree.iter (pollOnce Unmarshal keys) (Some shardIterator)
              end)
          else
            Vis (Sleep (5 * Second)) (λ _,
              ITree.iter (pollOnce Unmarshal keys) (Some waitIndex))
      end).
Proof.
  unfold WatchPrefix, mbind, itree_bind. rewrite bind_trigger.
  apply eqit_Vis. intros [e|[|shard0 shards]]; try reflexivity.
  destruct (decide (waitIndex = "")); rewrite bind_trigger; reflexivity.
Qed.

(** The first calls of [WatchPrefix] when it is given no cursor: the
    shard is resolved, a latest iterator is asked for, and the fetch
    comes next. *)
Lemma WatchPrefix_fresh_calls {W} (h : handler W) w w1 w2 prefix keys stop
  shard0 shards shardIterator fuel :
  h _ (DescribeStream "test") w = (inr (shard0 :: shards), w1) →
  h _ (GetShardIterator shard0 "test" ShardIteratorTypeLatest) w1 = (inr shardIterator, w2) →
  3 ≤ fuel →
  take 3 (run fuel h (WatchPrefix Unmarshal prefix keys "" stop) w).1
  = [called (DescribeStream "test");
     called (GetShardIterator shard0 "test" ShardIteratorTypeLatest);
     called (GetRecords (Some shardIterator))].
Proof.
  intros H1 H2 Hfuel. destruct fuel as [|[|[|fuel]]]; try lia.
  rewrite WatchPrefix_unfold, run_Vis, H1. cbn [fst snd].
  destruct (decide ("" = "")); [|congruence].
  rewrite run_Vis, H2. cbn [fst snd].
  rewrite pollLoop_unfold, run_Vis. reflexivity.
Qed.

Lemma WatchPrefix_resume_calls {W} (h : handler W) w w1 prefix keys waitIndex stop
  shard0 shards fuel :
  waitIndex ≠ "" →
  h _ (DescribeStream "test") w = (inr (shard0 :: shards), w1) →
  3 ≤ fuel →
  take 3 (run fuel h (WatchPrefix Unmarshal prefix keys waitIndex stop) w).1
  = [called (DescribeStream "test");
     called (Sleep (5 * Second));
     called (GetRecords (Some waitIndex))].
Proof.
  intros Hne H1 Hfuel. destruct fuel as [|[|[|fuel]]]; try lia.
  rewrite WatchPrefix_unfold, run_Vis, H1. cbn [fst snd].
  destruct (decide (waitIndex = "")); [congruence|].
  rewrite run_Vis. cbn [fst snd].
  rewrite pollLoop_unfold, run_Vis. reflexivity.
Qed.

(** In an uneventful world the loop goes round for ever. *)
Lemma pollLoop_never_returns {W} (h : handler W) (quiet : W → Prop) keys :
  uneventful Unmarshal keys h quiet →
  ∀ fuel w shardIterator,
    quiet w →
    (run fuel h (ITree.iter (pollOnce Unmarshal keys) shardIterator) w).2 = OutOfFuel.
Proof.
  intros (_ & _ & Hfetch & Hsleep) fuel.
  induction fuel as [fuel IH] using lt_wf_ind. intros w shardIterator Hq.
  destruct fuel as [|fuel]; [reflexivity|].
  rewrite pollLoop_unfold, run_Vis. cbn [snd].
  destruct (Hfetch w shardIterator Hq) as (out & w' & -> & Hscan & Hq').
  cbn [fst snd]. rewrite Hscan.
  destruct fuel as [|fuel]; [reflexivity|].
  rewrite run_Vis. cbn [snd].
  destruct fuel as [|fuel]; [reflexivity|].
  rewrite run_Tau. apply IH; [lia|]. apply Hsleep. assumption.
Qed.

(** No round of the loop receives on a channel. *)
Lemma pollLoop_never_receives {W} (h : handler W) keys :
  ∀ fuel w shardIterator,
    Forall (λ c, isReceive c = false)
      (run fuel h (ITree.iter (pollOnce Unmarshal keys) shardIterator) w).1.
Proof.
  intros fuel. induction fuel as [fuel IH] using lt_wf_ind. intros w shardIterator.
  destruct fuel as [|fuel]; [constructor|].
  rewrite pollLoop_unfold, run_Vis. cbn [fst]. constructor; [reflexivity|].
  destruct (h _ (GetRecords shardIterator) w) as [[err|out] w']; cbn [fst snd].
  - destruct fuel; constructor.
  - destruct (scanRecords Unmarshal keys (Records out) zeroEvent).
    + destruct fuel; constructor.
    + destruct fuel as [|fuel]; [constructor|].
      rewrite run_Vis. cbn [fst]. constructor; [reflexivity|].
      destruct fuel as [|fuel]; [constructor|].
      rewrite run_Tau. apply IH. lia.
Qed.

Lemma WatchPrefix_never_receives {W} (h : handler W) prefix keys waitIndex stop :
  ∀ fuel w,
    Forall (λ c, isReceive c = false)
      (run fuel h (WatchPrefix Unmarshal prefix keys waitIndex stop) w).1.
Proof.
  intros fuel w. destruct fuel as [|fuel]; [constructor|].
  rewrite WatchPrefix_unfold, run_Vis. cbn [fst]. constructor; [reflexivity|].
  destruct (h _ (DescribeStream "test") w) as [[err|[|shard0 shards]] w1]; cbn [fst snd].
  - destruct fuel; constructor.
  - destruct fuel; constructor.
  - destruct (decide (waitIndex = "")).
    + destruct fuel as [|fuel]; [constructor|].
      rewrite run_Vis. cbn [fst]. constructor; [reflexivity|].
      destruct (h _ (GetShardIterator shard0 "test" ShardIteratorTypeLatest) w1)
        as [[err|shardIterator] w2]; cbn [fst snd].
      * destruct fuel; constructor.
      * apply pollLoop_never_receives.
    + destruct fuel as [|fuel]; [constructor|].
      rewrite run_Vis. cbn [fst]. constructor; [reflexivity|].
      apply pollLoop_never_receives.
Qed.

Lemma WatchPrefix_never_returns {W} (h : handler W) (quiet : W → Prop)
  prefix keys waitIndex stop :
  uneventful Unmarshal keys h quiet →
  ∀ fuel w,
    quiet w →
    (run fuel h (WatchPrefix Unmarshal prefix keys waitIndex stop) w).2 = OutOfFuel.
Proof.
  intros Hun fuel w Hq. pose proof Hun as (Hdescribe & Hiterator & _ & Hsleep).
  destruct fuel as [|fuel]; [reflexivity|].
  rewrite WatchPrefix_unfold, run_Vis. cbn [snd].
  destruct (Hdescribe w "test" Hq) as (shard0 & shards & w1 & -> & Hq1). cbn [fst snd].
  destruct (decide (waitIndex = "")).
  - destruct fuel as [|fuel]; [reflexivity|].
    rewrite run_Vis. cbn [snd].
    destruct (Hiterator w1 shard0 "test" ShardIteratorTypeLatest Hq1)
      as (shardIterator & w2 & -> & Hq2). cbn [fst snd].
    apply (pollLoop_never_returns h quiet keys Hun). assumption.
  - destruct fuel as [|fuel]; [reflexivity|].
    rewrite run_Vis. cbn [snd].
    apply (pollLoop_never_returns h quiet keys Hun). apply Hsleep. assumption.
Qed.

End WithGo.
Lemma quietStream_uneventful keys :
  uneventful nameDecoder keys quietStream (λ _, True).
Proof.
  repeat split.
  - intros w name _. exists "shardId-000000000000", [], w. split; [reflexivity | exact I].
  - intros w shard stream type _. exists "latest", w. split; [reflexivity | exact I].
  - intros w shardIterator _.
    exists {| Records := []; NextShardIterator := Some "next" |}, w.
    repeat split; reflexivity.
Qed.

(** On a stream whose records are about [/app/db/host] the call returns
    after its first fetch, with the iterator that follows the batch. *)
Example WatchPrefix_returns_on_match :
  run 4 busyStream (WatchPrefix nameDecoder "/app" ["/app"] "" "stopChan") tt
  = ([called (DescribeStream "test");
      called (GetShardIterator "shardId-000000000000" "test" "LATEST");
      called (GetRecords (Some "latest"))], Returns ("next", None)).
Proof. reflexivity. Qed.

(** C2, as the claim states it: started without a cursor on a stream
    where nothing happens, the third call is the first fetch; no sleep
    comes before it. *)
Lemma WatchPrefix_fresh_fetches_at_once :
  run 3 quietStream (WatchPrefix nameDecoder "/app" ["/app"] "" "stopChan") tt
  = ([called (DescribeStream "test");
      called (GetShardIterator "shardId-000000000000" "test" "LATEST");
      called (GetRecords (Some "latest"))], OutOfFuel) ∧
  run 3 quietStream (WatchPrefix nameDecoder "/app" ["/app"] "cursor" "stopChan") tt
  = ([called (DescribeStream "test");
      called (Sleep (5 * Second));
      called (GetRecords (Some "cursor"))], OutOfFuel).
Proof. split; reflexivity. Qed.

(** C2, amended: with an empty input cursor the call resolves the
    shard of the stream, asks for a latest iterator, adopts it and
    fetches at once, without a delay; with a non-empty input cursor it
    resolves the shard, waits five seconds and fetches at that cursor. *)
Theorem WatchPrefix_first_fetch
  (Unmarshal : list Byte.byte → Event → Event * option error)
  {W : Type} (h : handler W) (prefix : string) (keys : list string) (stop : chan) :
  (∀ w w1 w2 shard0 shards shardIterator fuel,
     h _ (DescribeStream "test") w = (inr (shard0 :: shards), w1) →
     h _ (GetShardIterator shard0 "test" ShardIteratorTypeLatest) w1
     = (inr shardIterator, w2) →
     3 ≤ fuel →
     take 3 (run fuel h (WatchPrefix Unmarshal prefix keys "" stop) w).1
     = [called (DescribeStream "test");
        called (GetShardIterator shard0 "test" ShardIteratorTypeLatest);
        called (GetRecords (Some shardIterator))]) ∧
  (∀ waitIndex w w1 shard0 shards fuel,
     waitIndex ≠ "" →
     h _ (DescribeStream "test") w = (inr (shard0 :: shards), w1) →
     3 ≤ fuel →
     take 3 (run fuel h (WatchPrefix Unmarshal prefix keys waitIndex stop) w).1
     = [called (DescribeStream "test");
        called (Sleep (5 * Second));
        called (GetRecords (Some waitIndex))]).
Proof.
  split.
  - intros. eapply WatchPrefix_fresh_calls; eassumption.
  - intros. eapply WatchPrefix_resume_calls; eassumption.
Qed.

Lemma WatchPrefix_first_fetch_witness :
  take 3 (run 9 quietStream (WatchPrefix nameDecoder "/app" ["/app"] "" "stopChan") tt).1
  = [called (DescribeStream "test");
     called (GetShardIterator "shardId-000000000000" "test" ShardIteratorTypeLatest);
     called (GetRecords (Some "latest"))] ∧
  take 3 (run 9 quietStream (WatchPrefix nameDecoder "/app" ["/app"] "cursor" "stopChan") tt).1
  = [called (DescribeStream "test");
     called (Sleep (5 * Second));
     called (GetRecords (Some "cursor"))].
Proof.
  split.
  - apply (proj1 (WatchPrefix_first_fetch nameDecoder quietStream "/app" ["/app"] "stopChan")
             tt tt tt "shardId-000000000000" [] "latest" 9);
      [reflexivity | reflexivity | lia].
  - apply (proj2 (WatchPrefix_first_fetch nameDecoder quietStream "/app" ["/app"] "stopChan")
             "cursor" tt tt "shardId-000000000000" [] 9);
      [discriminate | reflexivity | lia].
Defined.

(** C9, as the claim states it: on a stream where nothing happens and
    the stop signal has fired from the start, the call makes its first
    rounds without a receive on the stop channel and does not return,
    however long it is run. *)
Lemma WatchPrefix_ignores_fired_stop :
  (quietStream _ (Receive "stopChan") tt).1 = true ∧
  run 6 quietStream (WatchPrefix nameDecoder "/app" ["/app"] "" "stopChan") tt
  = ([called (DescribeStream "test");
      called (GetShardIterator "shardId-000000000000" "test" "LATEST");
      called (GetRecords (Some "latest"));
      called (Sleep (5 * Second));
      called (GetRecords (Some "next"))], OutOfFuel) ∧
  ∀ fuel,
    (run fuel quietStream (WatchPrefix nameDecoder "/app" ["/app"] "" "stopChan") tt).2
    = OutOfFuel.
Proof.
  split; [reflexivity|]. split; [reflexivity|]. intros fuel.
  apply (WatchPrefix_never_returns nameDecoder quietStream (λ _, True));
    [apply quietStream_uneventful | exact I].
Qed.

(** C9, amended: the stop signal is never observed, between iterations
    no more than during a fetch or a sleep: in no world and at no point
    of its run does the call receive on a channel, and as long as the
    stream answers every fetch with records that are not about a watched
    key the call does not return, whatever the stop channel holds. *)
Theorem WatchPrefix_never_observes_stop
  (Unmarshal : list Byte.byte → Event → Event * option error)
  (prefix : string) (keys : list string) (waitIndex : string) (stopChan : chan) :
  (∀ (W : Type) (h : handler W) fuel w,
     Forall (λ c, isReceive c = false)
       (run fuel h (WatchPrefix Unmarshal prefix keys waitIndex stopChan) w).1) ∧
  (∀ (W : Type) (h : handler W) (quiet : W → Prop) fuel w,
     uneventful Unmarshal keys h quiet → quiet w →
     (run fuel h (WatchPrefix Unmarshal prefix keys waitIndex stopChan) w).2 = OutOfFuel).
Proof.
  split.
  - intros W h fuel w. apply WatchPrefix_never_receives.
  - intros W h quiet fuel w Hun Hq.
    apply (WatchPrefix_never_returns Unmarshal h quiet); assumption.
Qed.

Lemma WatchPrefix_never_observes_stop_witness :
  (run 1000 quietStream (WatchPrefix nameDecoder "/app" ["/app"] "" "stopChan") tt).2
  = OutOfFuel.
Proof.
  apply (proj2 (WatchPrefix_never_observes_stop nameDecoder "/app" ["/app"] "" "stopChan")
           unit quietStream (λ _, True) 1000 tt).
  - repeat split.
    + intros w name _. exists "shardId-000000000000", [], w. split; [reflexivity | exact I].
    + intros w shard stream type _. exists "latest", w. split; [reflexivity | exact I].
    + intros w shardIterator _.
      exists {| Records := []; NextShardIterator := Some "next" |}, w.
      repeat split; reflexivity.
  - exact I.
Defined.

(** *** GetValues *)

Lemma GetValues_from_prefix_found c key rest vars :
  (getParametersWithPrefix c key).1 ≠ ∅ →
  GetValues_from c (key :: rest) vars
  = GetValues_from c rest ((getParametersWithPrefix c key).1 ∪ vars).
Proof.
  intros Hne. cbn [GetValues_from getParametersWithPrefix fst] in *.
  destruct (size _ =? 0) eqn:Hsize; [|reflexivity].
  apply Nat.eqb_eq, map_size_empty_iff in Hsize. contradiction.
Qed.

Lemma GetValues_from_fallback c key rest vars :
  (getParametersWithPrefix c key).1 = ∅ →
  GetValues_from c (key :: rest) vars
  = match GetParameter (client c) key with
    | inr p => GetValues_from c rest (<[Name p := Value p]> vars)
    | inl (GoError _) => Panics "interface conversion: error is not awserr.Error"
    | inl (AwsError code message) =>
        if decide (code ≠ ErrCodeParameterNotFound)
        then Returns (vars, Some (AwsError code message))
        else GetValues_from c rest vars
    end.
Proof.
  intros Hempty. cbn [GetValues_from getParametersWithPrefix fst] in *.
  rewrite Hempty, map_size_empty. cbn [Nat.eqb]. unfold getParameter.
  destruct (GetParameter (client c) key) as [[msg|code message]|p].
  - reflexivity.
  - rewrite (left_id_L ∅ (∪)). reflexivity.
  - rewrite <- insert_union_l, (left_id_L ∅ (∪)). reflexivity.
Qed.


(** C6: for a key whose path-prefix fetch yields something the result
    is that of the fetch; when it yields nothing the single-name fetch
    is made: a parameter found is written, a [ParameterNotFound] leaves
    the map as it was and the loop goes on to the next key with no
    error, and any other AWS error is returned by [GetValues] with the
    map as it stood. *)
Theorem GetValues_fallback (c : Client) (key : string) (rest : list string)
  (vars : gmap string string) :
  ((getParametersWithPrefix c key).1 ≠ ∅ →
   GetValues_from c (key :: rest) vars
   = GetValues_from c rest ((getParametersWithPrefix c key).1 ∪ vars)) ∧
  ((getParametersWithPrefix c key).1 = ∅ →
   (∀ p, GetParameter (client c) key = inr p →
      GetValues_from c (key :: rest) vars
      = GetValues_from c rest (<[Name p := Value p]> vars)) ∧
   (∀ message,
      GetParameter (client c) key = inl (AwsError ErrCodeParameterNotFound message) →
      GetValues_from c (key :: rest) vars = GetValues_from c rest vars) ∧
   (∀ code message,
      code ≠ ErrCodeParameterNotFound →
      GetParameter (client c) key = inl (AwsError code message) →
      GetValues_from c (key :: rest) vars = Returns (vars, Some (AwsError code message)))).
Proof.
  split; [apply GetValues_from_prefix_found|].
  intros Hempty. repeat split.
  - intros p Hp. rewrite GetValues_from_fallback, Hp by assumption. reflexivity.
  - intros message Hp. rewrite GetValues_from_fallback, Hp by assumption.
    destruct (decide (ErrCodeParameterNotFound ≠ ErrCodeParameterNotFound));
      [congruence | reflexivity].
  - intros code message Hcode Hp. rewrite GetValues_from_fallback, Hp by assumption.
    destruct (decide (code ≠ ErrCodeParameterNotFound)); [reflexivity | contradiction].
Qed.

(** On a store that holds [/app/db/host]: the path [/app] lists it, its
    own name fetches it, a name that is not there adds nothing, and the
    denied name stops the call. *)
Lemma GetValues_fallback_witness :
  GetValues {| client := parameterStore appParameters |} ["/app"]
  = Returns (<["/app/db/host" := "x"]> ∅, None) ∧
  GetValues {| client := parameterStore appParameters |} ["/app/db/host"]
  = Returns (<["/app/db/host" := "x"]> ∅, None) ∧
  GetValues {| client := parameterStore appParameters |} ["/nope"; "/app"]
  = GetValues {| client := parameterStore appParameters |} ["/app"] ∧
  GetValues {| client := parameterStore appParameters |} ["/denied"; "/app"]
  = Returns (∅, Some (AwsError "AccessDeniedException" "not authorized")).
Proof.
  split; [|split; [|split]].
  - unfold GetValues.
    rewrite (proj1 (GetValues_fallback
               {| client := parameterStore appParameters |} "/app" [] ∅)).
    + vm_compute. reflexivity.
    + intros Hempty.
      apply (f_equal (λ m : gmap string string, m !! "/app/db/host")) in Hempty.
      vm_compute in Hempty. discriminate.
  - unfold GetValues.
    rewrite (proj1 (proj2 (GetValues_fallback
               {| client := parameterStore appParameters |} "/app/db/host" [] ∅)
               ltac:(reflexivity)) {| Name := "/app/db/host"; Value := "x" |});
      reflexivity.
  - apply (proj1 (proj2 (proj2 (GetValues_fallback
             {| client := parameterStore appParameters |} "/nope" ["/app"] ∅)
             ltac:(reflexivity))) "").
    reflexivity.
  - apply (proj2 (proj2 (proj2 (GetValues_fallback
             {| client := parameterStore appParameters |} "/denied" ["/app"] ∅)
             ltac:(reflexivity))) "AccessDeniedException" "not authorized").
    + discriminate.
    + reflexivity.
Defined.

(** ** The parameters of a path *)

Lemma write_page page (parameters : gmap string string) :
  fold_left (λ m p, <[Name p := Value p]> m) page parameters
  = assign_all ((λ p, (Name p, Value p)) <$> page) parameters.
Proof.
  revert parameters. induction page as [|p page IH]; intros parameters; [reflexivity|].
  cbn [fold_left]. rewrite IH. reflexivity.
Qed.

Lemma eachPage_all pages : ∀ parameters,
  eachPage pages parameters
  = assign_all ((λ p, (Name p, Value p)) <$> concat pages) parameters.
Proof.
  induction pages as [|page pages IH]; intros parameters; [reflexivity|].
  cbn [eachPage concat]. rewrite fmap_app, assign_all_app, write_page.
  destruct pages as [|page' pages].
  - reflexivity.
  - cbn [bool_decide negb]. rewrite bool_decide_eq_false_2 by discriminate.
    cbn [negb]. apply IH.
Qed.

(** X12: [getParametersWithPrefix] never returns an error and reads
    every page the pager hands it: the map it returns holds exactly the
    names of the parameters of all the pages, a later parameter of the
    same name replacing an earlier one, and when no name comes twice
    every parameter is there with its value. *)
Theorem getParametersWithPrefix_reads_all_pages (c : Client) (prefix : string) :
  (getParametersWithPrefix c prefix).2 = None ∧
  (getParametersWithPrefix c prefix).1
  = assign_all ((λ p, (Name p, Value p))
                  <$> concat (GetParametersByPathPages (client c) prefix)) ∅ ∧
  (∀ name,
     is_Some ((getParametersWithPrefix c prefix).1 !! name) ↔
     ∃ p, p ∈ concat (GetParametersByPathPages (client c) prefix) ∧ Name p = name) ∧
  (NoDup (Name <$> concat (GetParametersByPathPages (client c) prefix)) →
   ∀ p, p ∈ concat (GetParametersByPathPages (client c) prefix) →
        (getParametersWithPrefix c prefix).1 !! Name p = Some (Value p)).
Proof.
  unfold getParametersWithPrefix. cbn [fst snd]. rewrite eachPage_all.
  split; [reflexivity|]. split; [reflexivity|]. split.
  - intros name. rewrite assign_all_is_Some, <- list_fmap_compose.
    rewrite list_elem_of_fmap. split.
    + intros [(p & -> & Hp)|[x Hx]]; [exists p; split; [exact Hp | reflexivity]|].
      rewrite lookup_empty in Hx. discriminate.
    + intros (p & Hp & <-). left. exists p. split; [reflexivity | exact Hp].
  - intros Hnd p Hp. apply assign_all_lookup.
    + rewrite <- list_fmap_compose. exact Hnd.
    + apply list_elem_of_fmap. exists p. split; [reflexivity | exact Hp].
Qed.

Lemma getParametersWithPrefix_reads_all_pages_witness :
  (getParametersWithPrefix {| client := parameterStore appParameters |} "/app").1
    !! "/app/db/host" = Some "x".
Proof.
  apply (proj2 (proj2 (proj2 (getParametersWithPrefix_reads_all_pages
           {| client := parameterStore appParameters |} "/app")))
           ltac:(apply (bool_decide_unpack _); vm_compute; exact I)
           {| Name := "/app/db/host"; Value := "x" |}).
  vm_compute. apply list_elem_of_here.
Defined.

(** ** The errors of GetValues *)

Lemma GetValues_from_error c keys : ∀ vars vars' e,
  GetValues_from c keys vars = Returns (vars', Some e) →
  ∃ key code message,
    key ∈ keys ∧ e = AwsError code message ∧ code ≠ ErrCodeParameterNotFound ∧
    GetParameter (client c) key = inl e ∧ (getParametersWithPrefix c key).1 = ∅.
Proof.
  induction keys as [|key keys IH]; intros vars vars' e H; [discriminate|].
  assert (Hrest : ∀ vars1, GetValues_from c keys vars1 = Returns (vars', Some e) →
            ∃ key0 code message,
              key0 ∈ key :: keys ∧ e = AwsError code message ∧
              code ≠ ErrCodeParameterNotFound ∧
              GetParameter (client c) key0 = inl e ∧
              (getParametersWithPrefix c key0).1 = ∅).
  { intros vars1 H1. destruct (IH _ _ _ H1) as (k & code & message & Hk & Hrest).
    exists k, code, message. split; [apply list_elem_of_further; exact Hk | exact Hrest]. }
  destruct (decide ((getParametersWithPrefix c key).1 = ∅)) as [He|Hne].
  - rewrite GetValues_from_fallback in H by assumption.
    destruct (GetParameter (client c) key) as [[msg|code message]|p] eqn:HP;
      [discriminate | | apply (Hrest _ H)].
    destruct (decide (code ≠ ErrCodeParameterNotFound)); [|apply (Hrest _ H)].
    inversion H; subst. exists key, code, message.
    split; [apply list_elem_of_here|]. repeat split; assumption.
  - rewrite GetValues_from_prefix_found in H by assumption. apply (Hrest _ H).
Qed.

(** X13: an error [GetValues] returns is never [ParameterNotFound]: it
    is an AWS error with another code, the very one [GetParameter] gave
    for one of the keys, a key whose path-prefix fetch had yielded
    nothing. *)
Theorem GetValues_error_is_fallback_error (c : Client) (keys : list string)
  (vars' : gmap string string) (e : error) :
  GetValues c keys = Returns (vars', Some e) →
  ∃ key code message,
    key ∈ keys ∧ e = AwsError code message ∧ code ≠ ErrCodeParameterNotFound ∧
    GetParameter (client c) key = inl e ∧ (getParametersWithPrefix c key).1 = ∅.
Proof. intros H. apply (GetValues_from_error _ _ _ _ _ H). Qed.

Lemma GetValues_error_is_fallback_error_witness :
  ∃ key code message,
    key ∈ ["/app"; "/denied"] ∧
    AwsError "AccessDeniedException" "not authorized" = AwsError code message ∧
    code ≠ ErrCodeParameterNotFound ∧
    GetParameter (parameterStore appParameters) key
    = inl (AwsError "AccessDeniedException" "not authorized") ∧
    (getParametersWithPrefix {| client := parameterStore appParameters |} key).1 = ∅.
Proof.
  apply (GetValues_error_is_fallback_error {| client := parameterStore appParameters |}
           ["/app"; "/denied"] (<["/app/db/host" := "x"]> ∅)).
  vm_compute. reflexivity.
Defined.

(** ** The calls of WatchPrefix *)

Section WithGo.
Variable Unmarshal : list Byte.byte → Event → Event * option error.

Lemma paced_fetch_pause (c1 c2 : call) calls :
  isFetch c1 = true → isPause c2 = true → isFetch c2 = false →
  paced (c1 :: c2 :: calls) = paced calls.
Proof.
  intros H1 H2 H3. cbn [paced]. rewrite H2, H3. cbn [negb orb andb].
  rewrite orb_true_r. destruct calls; reflexivity.
Qed.

Lemma pollLoop_paced {W} (h : handler W) keys :
  ∀ fuel w shardIterator,
    paced (run fuel h (ITree.iter (pollOnce Unmarshal keys) shardIterator) w).1 = true ∧
    Forall (λ c, isSleep c = true → isPause c = true)
      (run fuel h (ITree.iter (pollOnce Unmarshal keys) shardIterator) w).1.
Proof.
  intros fuel. induction fuel as [fuel IH] using lt_wf_ind. intros w shardIterator.
  destruct fuel as [|fuel]; [split; [reflexivity | constructor]|].
  rewrite pollLoop_unfold, run_Vis. cbn [fst].
  destruct (h _ (GetRecords shardIterator) w) as [[err|out] w']; cbn [fst snd].
  - destruct fuel; (split; [reflexivity | repeat constructor; discriminate]).
  - destruct (scanRecords Unmarshal keys (Records out) zeroEvent).
    + destruct fuel; (split; [reflexivity | repeat constructor; discriminate]).
    + destruct fuel as [|fuel]; [split; [reflexivity | repeat constructor; discriminate]|].
      rewrite run_Vis. cbn [fst].
      destruct fuel as [|fuel];
        [split; [reflexivity | repeat constructor; try discriminate; reflexivity]|].
      rewrite run_Tau.
      destruct (IH fuel ltac:(lia) (h _ (Sleep (5 * Second)) w').2
                  (NextShardIterator out)) as [Hp Hs].
      split.
      * rewrite paced_fetch_pause by reflexivity. exact Hp.
      * constructor; [discriminate|]. constructor; [reflexivity | exact Hs].
Qed.

Lemma WatchPrefix_paced_calls {W} (h : handler W) prefix keys waitIndex stop :
  ∀ fuel w,
    paced (run fuel h (WatchPrefix Unmarshal prefix keys waitIndex stop) w).1 = true ∧
    Forall (λ c, isSleep c = true → isPause c = true)
      (run fuel h (WatchPrefix Unmarshal prefix keys waitIndex stop) w).1.
Proof.
  intros fuel w. destruct fuel as [|fuel]; [split; [reflexivity | constructor]|].
  rewrite WatchPrefix_unfold, run_Vis. cbn [fst].
  destruct (h _ (DescribeStream "test") w) as [[err|[|shard0 shards]] w1]; cbn [fst snd].
  - destruct fuel; (split; [reflexivity | repeat constructor; discriminate]).
  - destruct fuel; (split; [reflexivity | repeat constructor; discriminate]).
  - destruct (decide (waitIndex = "")).
    + destruct fuel as [|fuel]; [split; [reflexivity | repeat constructor; discriminate]|].
      rewrite run_Vis. cbn [fst].
      destruct (h _ (GetShardIterator shard0 "test" ShardIteratorTypeLatest) w1)
        as [[err|shardIterator] w2]; cbn [fst snd].
      * destruct fuel; (split; [reflexivity | repeat constructor; discriminate]).
      * destruct (pollLoop_paced h keys fuel w2 (Some shardIterator)) as [Hp Hs].
        split; [|constructor; [discriminate|]; constructor; [discriminate | exact Hs]].
        destruct (run fuel h _ w2).1 as [|c1 calls] eqn:Hc; [reflexivity|].
        cbn [paced] in Hp |- *. cbn. exact Hp.
    + destruct fuel as [|fuel]; [split; [reflexivity | repeat constructor; discriminate]|].
      rewrite run_Vis. cbn [fst].
      destruct (pollLoop_paced h keys fuel (h _ (Sleep (5 * Second)) w1).2 (Some waitIndex))
        as [Hp Hs].
      split; [|constructor; [discriminate|]; constructor; [reflexivity | exact Hs]].
      destruct (run fuel h _ _).1 as [|c1 calls] eqn:Hc; [reflexivity|].
      cbn [paced] in Hp |- *. cbn. exact Hp.
Qed.

Lemma scanRecords_no_keys records : ∀ event,
  scanRecords Unmarshal [] records event ≠ Some None.
Proof.
  induction records as [|record records IH]; intros event; cbn [scanRecords existsb].
  - discriminate.
  - destruct (Unmarshal (Data record) event) as [event' [e|]]; [discriminate | apply IH].
Qed.

Lemma pollLoop_no_keys {W} (h : handler W) :
  ∀ fuel w shardIterator,
    succeeded (run fuel h (ITree.iter (pollOnce Unmarshal []) shardIterator) w).2 = false.
Proof.
  intros fuel. induction fuel as [fuel IH] using lt_wf_ind. intros w shardIterator.
  destruct fuel as [|fuel]; [reflexivity|].
  rewrite pollLoop_unfold, run_Vis. cbn [snd].
  destruct (h _ (GetRecords shardIterator) w) as [[err|out] w']; cbn [fst snd].
  - destruct fuel; [reflexivity|]. rewrite run_Ret. cbn [snd].
    destruct shardIterator; reflexivity.
  - destruct (scanRecords Unmarshal [] (Records out) zeroEvent) as [[e|]|] eqn:Hscan.
    + destruct fuel; [reflexivity|]. rewrite run_Ret. cbn [snd].
      destruct (NextShardIterator out); reflexivity.
    + exfalso. apply (scanRecords_no_keys _ _ Hscan).
    + destruct fuel as [|fuel]; [reflexivity|]. rewrite run_Vis. cbn [snd].
      destruct fuel as [|fuel]; [reflexivity|]. rewrite run_Tau. apply IH. lia.
Qed.

Lemma WatchPrefix_no_keys {W} (h : handler W) prefix waitIndex stop :
  ∀ fuel w,
    succeeded (run fuel h (WatchPrefix Unmarshal prefix [] waitIndex stop) w).2 = false.
Proof.
  intros fuel w. destruct fuel as [|fuel]; [reflexivity|].
  rewrite WatchPrefix_unfold, run_Vis. cbn [snd].
  destruct (h _ (DescribeStream "test") w) as [[err|[|shard0 shards]] w1]; cbn [fst snd].
  - destruct fuel; reflexivity.
  - destruct fuel; reflexivity.
  - destruct (decide (waitIndex = "")).
    + destruct fuel as [|fuel]; [reflexivity|]. rewrite run_Vis. cbn [snd].
      destruct (h _ (GetShardIterator shard0 "test" ShardIteratorTypeLatest) w1)
        as [[err|shardIterator] w2]; cbn [fst snd].
      * destruct fuel; reflexivity.
      * apply pollLoop_no_keys.
    + destruct fuel as [|fuel]; [reflexivity|]. rewrite run_Vis. cbn [snd].
      apply pollLoop_no_keys.
Qed.

(** The cursor the loop returns is one the stream handed out. *)
Lemma pollLoop_cursor {W} (h : handler W) keys (handed : string → Prop) :
  (∀ w shardIterator out w' next,
     h _ (GetRecords shardIterator) w = (inr out, w') →
     NextShardIterator out = Some next → handed next) →
  ∀ fuel w shardIterator cursor err,
    (∀ s, shardIterator = Some s → handed s) →
    (run fuel h (ITree.iter (pollOnce Unmarshal keys) shardIterator) w).2
    = Returns (cursor, err) →
    handed cursor.
Proof.
  intros Hnext fuel. induction fuel as [fuel IH] using lt_wf_ind.
  intros w shardIterator cursor err Hit H.
  destruct fuel as [|fuel]; [discriminate|].
  rewrite pollLoop_unfold, run_Vis in H. cbn [snd] in H.
  destruct (h _ (GetRecords shardIterator) w) as [[e|out] w'] eqn:Hh; cbn [fst snd] in H.
  - destruct fuel; [discriminate|]. rewrite run_Ret in H. cbn [snd] in H.
    destruct shardIterator as [s|]; [|discriminate]. inversion H; subst.
    apply Hit. reflexivity.
  - destruct (scanRecords Unmarshal keys (Records out) zeroEvent) as [e|].
    + destruct fuel; [discriminate|]. rewrite run_Ret in H. cbn [snd] in H.
      destruct (NextShardIterator out) as [next|] eqn:Hn; [|discriminate].
      inversion H; subst. apply (Hnext _ _ _ _ _ Hh Hn).
    + destruct fuel as [|fuel]; [discriminate|]. rewrite run_Vis in H. cbn [snd] in H.
      destruct fuel as [|fuel]; [discriminate|]. rewrite run_Tau in H.
      apply (IH fuel ltac:(lia) _ _ _ _) with (2 := H).
      intros s Hs. apply (Hnext _ _ _ _ _ Hh Hs).
Qed.

End WithGo.

(** X14: in every world the calls of [WatchPrefix] are paced: a fetch
    that is not the last call of the run is followed by a sleep, and
    every sleep of the run lasts five seconds. *)
Theorem WatchPrefix_paces_fetches
  (Unmarshal : list Byte.byte → Event → Event * option error) {W : Type}
  (h : handler W) (prefix : string) (keys : list string) (waitIndex : string)
  (stopChan : chan) (fuel : nat) (w : W) :
  paced (run fuel h (WatchPrefix Unmarshal prefix keys waitIndex stopChan) w).1 = true ∧
  Forall (λ c, isSleep c = true → isPause c = true)
    (run fuel h (WatchPrefix Unmarshal prefix keys waitIndex stopChan) w).1.
Proof. apply WatchPrefix_paced_calls. Qed.

(** X15: called with no keys, [WatchPrefix] never returns a nil error:
    in every world a run ends, if it ends, with an error or a panic. *)
Theorem WatchPrefix_without_keys_never_succeeds
  (Unmarshal : list Byte.byte → Event → Event * option error) {W : Type}
  (h : handler W) (prefix waitIndex : string) (stopChan : chan) (fuel : nat) (w : W) :
  succeeded (run fuel h (WatchPrefix Unmarshal prefix [] waitIndex stopChan) w).2 = false.
Proof. apply WatchPrefix_no_keys. Qed.

(** X16: the cursor [WatchPrefix] returns, with or without an error, is
    the input cursor or one the stream handed out, as the answer of
    [GetShardIterator] or as the continuation of a batch of records:
    whatever holds of all of these holds of the cursor returned. *)
Theorem WatchPrefix_returns_known_cursor
  (Unmarshal : list Byte.byte → Event → Event * option error) {W : Type}
  (h : handler W) (handed : string → Prop) (prefix : string) (keys : list string)
  (waitIndex : string) (stopChan : chan) (fuel : nat) (w : W)
  (cursor : string) (err : option error) :
  handed waitIndex →
  (∀ w shard stream type shardIterator w',
     h _ (GetShardIterator shard stream type) w = (inr shardIterator, w') →
     handed shardIterator) →
  (∀ w shardIterator out w' next,
     h _ (GetRecords shardIterator) w = (inr out, w') →
     NextShardIterator out = Some next → handed next) →
  (run fuel h (WatchPrefix Unmarshal prefix keys waitIndex stopChan) w).2
  = Returns (cursor, err) →
  handed cursor.
Proof.
  intros Hin Hiter Hnext H. destruct fuel as [|fuel]; [discriminate|].
  rewrite WatchPrefix_unfold, run_Vis in H. cbn [snd] in H.
  destruct (h _ (DescribeStream "test") w) as [[e|[|shard0 shards]] w1]; cbn [fst snd] in H.
  - destruct fuel; [discriminate|]. rewrite run_Ret in H. inversion H; subst. exact Hin.
  - destruct fuel; [discriminate|]. rewrite run_Ret in H. discriminate.
  - destruct (decide (waitIndex = "")).
    + destruct fuel as [|fuel]; [discriminate|]. rewrite run_Vis in H. cbn [snd] in H.
      destruct (h _ (GetShardIterator shard0 "test" ShardIteratorTypeLatest) w1)
        as [[e'|shardIterator] w2] eqn:Hh; cbn [fst snd] in H.
      * destruct fuel; [discriminate|]. rewrite run_Ret in H. inversion H; subst. exact Hin.
      * apply (pollLoop_cursor Unmarshal h keys handed Hnext _ _ _ _ _) with (2 := H).
        intros s Hs. inversion Hs; subst. apply (Hiter _ _ _ _ _ _ Hh).
    + destruct fuel as [|fuel]; [discriminate|]. rewrite run_Vis in H. cbn [snd] in H.
      apply (pollLoop_cursor Unmarshal h keys handed Hnext _ _ _ _ _) with (2 := H).
      intros s Hs. inversion Hs; subst. exact Hin.
Qed.

Lemma WatchPrefix_returns_known_cursor_witness :
  "next" = "" ∨ "next" = "latest" ∨ "next" = "next".
Proof.
  apply (WatchPrefix_returns_known_cursor nameDecoder busyStream
           (λ s, s = "" ∨ s = "latest" ∨ s = "next")
           "/app" ["/app"] "" "stopChan" 4 tt "next" None).
  - left. reflexivity.
  - intros w shard stream type shardIterator w' H. inversion H. right. left. reflexivity.
  - intros w shardIterator out w' next H Hn. inversion H; subst. cbn in Hn.
    inversion Hn. right. right. reflexivity.
  - reflexivity.
Defined.

Section WithGo.
Variable Unmarshal : list Byte.byte → Event → Event * option error.

(** Once the shard is closed the loop has no cursor to return. *)
Lemma pollLoop_closed {W} (h : handler W) keys :
  (∀ w shardIterator out w',
     h _ (GetRecords shardIterator) w = (inr out, w') → NextShardIterator out = None) →
  ∀ fuel w shardIterator,
    succeeded (run fuel h (ITree.iter (pollOnce Unmarshal keys) shardIterator) w).2 = false.
Proof.
  intros Hclosed fuel. induction fuel as [fuel IH] using lt_wf_ind. intros w shardIterator.
  destruct fuel as [|fuel]; [reflexivity|].
  rewrite pollLoop_unfold, run_Vis. cbn [snd].
  destruct (h _ (GetRecords shardIterator) w) as [[err|out] w'] eqn:Hh; cbn [fst snd].
  - destruct fuel; [reflexivity|]. rewrite run_Ret. cbn [snd].
    destruct shardIterator; reflexivity.
  - rewrite (Hclosed _ _ _ _ Hh).
    destruct (scanRecords Unmarshal keys (Records out) zeroEvent) as [e|].
    + destruct fuel; [reflexivity|]. rewrite run_Ret. reflexivity.
    + destruct fuel as [|fuel]; [reflexivity|]. rewrite run_Vis. cbn [snd].
      destruct fuel as [|fuel]; [reflexivity|]. rewrite run_Tau. apply IH. lia.
Qed.

Lemma WatchPrefix_closed {W} (h : handler W) prefix keys waitIndex stop :
  (∀ w shardIterator out w',
     h _ (GetRecords shardIterator) w = (inr out, w') → NextShardIterator out = None) →
  ∀ fuel w,
    succeeded (run fuel h (WatchPrefix Unmarshal prefix keys waitIndex stop) w).2 = false.
Proof.
  intros Hclosed fuel w. destruct fuel as [|fuel]; [reflexivity|].
  rewrite WatchPrefix_unfold, run_Vis. cbn [snd].
  destruct (h _ (DescribeStream "test") w) as [[err|[|shard0 shards]] w1]; cbn [fst snd].
  - destruct fuel; reflexivity.
  - destruct fuel; reflexivity.
  - destruct (decide (waitIndex = "")).
    + destruct fuel as [|fuel]; [reflexivity|]. rewrite run_Vis. cbn [snd].
      destruct (h _ (GetShardIterator shard0 "test" ShardIteratorTypeLatest) w1)
        as [[err|shardIterator] w2]; cbn [fst snd].
      * destruct fuel; reflexivity.
      * apply pollLoop_closed. exact Hclosed.
    + destruct fuel as [|fuel]; [reflexivity|]. rewrite run_Vis. cbn [snd].
      apply pollLoop_closed. exact Hclosed.
Qed.

End WithGo.

(** X18: on a stream whose shard is closed, so that every fetch that
    succeeds hands back no next iterator, [WatchPrefix] never returns a
    nil error, whatever the keys and the records: a change it finds is
    lost to the dereference of the nil iterator. *)
Theorem WatchPrefix_closed_shard_never_succeeds
  (Unmarshal : list Byte.byte → Event → Event * option error) {W : Type}
  (h : handler W) (prefix : string) (keys : list string) (waitIndex : string)
  (stopChan : chan) (fuel : nat) (w : W) :
  (∀ w shardIterator out w',
     h _ (GetRecords shardIterator) w = (inr out, w') → NextShardIterator out = None) →
  succeeded (run fuel h (WatchPrefix Unmarshal prefix keys waitIndex stopChan) w).2 = false.
Proof. intros Hclosed. apply WatchPrefix_closed. exact Hclosed. Qed.

Lemma WatchPrefix_closed_shard_never_succeeds_witness :
  (run 10 closedShard (WatchPrefix nameDecoder "" ["/app"] "" "stop") tt).2
  = Panics "invalid memory address or nil pointer dereference" ∧
  succeeded (run 10 closedShard (WatchPrefix nameDecoder "" ["/app"] "" "stop") tt).2
  = false.
Proof.
  split; [vm_compute; reflexivity|].
  apply (WatchPrefix_closed_shard_never_succeeds nameDecoder closedShard).
  intros w shardIterator out w' H. cbn in H. inversion H. reflexivity.
Defined.

End SsmSpec.

(** ** A failed GetValues hands back what it had gathered *)


